(** * lstest: three lock strategies around a turn-taking counter

    A verification development for [main.cpp].  The program starts
    [max_threads] workers on one shared [Resource]; every worker calls
    [inc] in a tight loop until the value it gets back reaches
    [max_count].  Three implementations of [Resource] exist; they share
    the protected code and differ in how they lock.

    The model is an interleaving semantics: a state holds the shared
    cells ([val] and the lock cell) and one control point per worker, and
    a step executes one access to shared memory by one worker.  The step
    function is executable, so concrete schedules can be replayed.  *)

From stdpp Require Import base tactics option list numbers strings.
From Stdlib Require Import ZArith Lia Ascii.

Local Open Scope Z_scope.

(** ** Data *)

(** [int] of the source, as on the usual targets: 32 bits. *)
Definition INT_MAX : Z := 2147483647.

(** The three classes that implement the interface [Resource]. *)
Inductive Resource : Set :=
| ResourceAtomicSpin
| ResourceAtomicFlag
| ResourceMutex.

Global Instance Resource_eq_dec : EqDecision Resource.
Proof. solve_decision. Defined.

(** The shared cells of a resource object.  [val] is the counter.  [lock]
    is [spin_lock] (an [atomic<int>]) in [ResourceAtomicSpin],
    [std_spin_lock] (an [atomic_flag]: 0 clear, 1 set) in
    [ResourceAtomicFlag], and [m] (0 unlocked, 1 locked) in
    [ResourceMutex]. *)
Record shared : Set := Shared { val : Z; lock : Z }.

(** Where a worker is.  The points inside [inc] are the accesses to the
    shared cells, in program order; [val] is [volatile], so the test, the
    two halves of [val++] and the copy are separate accesses.

    In [ResourceAtomicSpin] the local [expect] is set to 0 at the top of
    every iteration of the [do]-[while], so every
    [compare_exchange_weak] compares with 0, and what a failed exchange
    loads into [expect] is never read: the point [Acquire] stands for
    "[expect = 0]; exchange". *)
Inductive point : Set :=
| Acquire                (* the locking loop: the next exchange / test_and_set / m.lock() *)
| Test                   (* if (val % max_threads == thread_num) *)
| IncRead                (* val++ : the load *)
| IncWrite (tmp : Z)     (* val++ : the store of tmp + 1 *)
| Copy                   (* int ret = val; *)
| Release (ret : Z)      (* store(0) / clear() / m.unlock() *)
| Return (ret : Z)       (* return ret; then the worker tests ret < max_count *)
| Done.                  (* the worker function has returned *)

Global Instance point_eq_dec : EqDecision point.
Proof. solve_decision. Defined.

(** One run of [execSync]: the resource object and the workers, worker
    [i] (the one started with [thread_num = i]) at position [i]. *)
Record state : Set := State { mem : shared; threads : list point }.

(** The parameters of a run. *)
Record config : Set := Config {
  resource : Resource;
  max_threads : Z;
  max_count : Z
}.

(** ** Operations *)

(** [val++] on an [int]: the store of [tmp + 1].  Signed overflow is
    undefined, so there is no result at [INT_MAX]. *)
Definition incr (tmp : Z) : option Z :=
  if decide (tmp < INT_MAX) then Some (tmp + 1) else None.

(** The locking loop of each class, one attempt.

    - [ResourceAtomicSpin]:
      [do { expect = 0; } while (spin_lock.compare_exchange_weak(expect, 1, ...));]
      The exchange succeeds when the cell is 0 (and it does not fail
      spuriously): it writes 1 and yields [true], and the loop goes
      round again.  It fails otherwise and yields [false]: the loop ends
      and the protected code follows.
    - [ResourceAtomicFlag]:
      [while (std_spin_lock.test_and_set(...));]
      sets the flag and yields what it was; the loop ends when it was
      clear.
    - [ResourceMutex]: [m.lock();] waits while the mutex is locked: no
      step then. *)
Definition acquire (r : Resource) (spurious : bool) (sh : shared)
  : option (shared * point) :=
  match r with
  | ResourceAtomicSpin =>
      if bool_decide (lock sh = 0) && negb spurious
      then Some (Shared (val sh) 1, Acquire)
      else Some (sh, Test)
  | ResourceAtomicFlag =>
      if bool_decide (lock sh = 0)
      then Some (Shared (val sh) 1, Test)
      else Some (Shared (val sh) 1, Acquire)
  | ResourceMutex =>
      if bool_decide (lock sh = 0)
      then Some (Shared (val sh) 1, Test)
      else None
  end.

(** [inc(max_threads, thread_num)], one access at a time.  The protected
    code and the release are the same text in the three classes. *)
Definition inc (r : Resource) (max_threads : Z) (thread_num : nat)
    (spurious : bool) (sh : shared) (p : point) : option (shared * point) :=
  match p with
  | Acquire => acquire r spurious sh
  | Test =>
      if bool_decide (Z.rem (val sh) max_threads = Z.of_nat thread_num)
      then Some (sh, IncRead)
      else Some (sh, Copy)
  | IncRead => Some (sh, IncWrite (val sh))
  | IncWrite tmp => v ← incr tmp; Some (Shared v (lock sh), Copy)
  | Copy => Some (sh, Release (val sh))
  | Release ret => Some (Shared (val sh) 0, Return ret)
  | Return _ | Done => None
  end.

(** [worker]: [while (r.inc(max_threads, thread_num) < max_count);] *)
Definition worker (c : config) (thread_num : nat) (spurious : bool)
    (sh : shared) (p : point) : option (shared * point) :=
  match p with
  | Return ret =>
      if bool_decide (ret < max_count c) then Some (sh, Acquire) else Some (sh, Done)
  | Done => None
  | _ => inc (resource c) (max_threads c) thread_num spurious sh p
  end.

(** A step of the run: the scheduler picks a worker; the flag says
    whether a weak exchange made now fails spuriously. *)
Definition label : Set := nat * bool.

Definition step (c : config) (s : state) (l : label) : option state :=
  p ← threads s !! l.1;
  '(sh, p') ← worker c l.1 l.2 (mem s) p;
  Some (State sh (<[l.1 := p']> (threads s))).

Fixpoint run (c : config) (s : state) (ls : list label) : option state :=
  match ls with
  | [] => Some s
  | l :: ls' => s' ← step c s l; run c s' ls'
  end.

(** [execSync] starts workers [0 .. max_threads - 1] on the fresh
    resource and joins them.  [val] starts at 0; the flag starts clear
    and the mutex unlocked. *)
Definition execSync (c : config) : state :=
  State (Shared 0 0) (replicate (Z.to_nat (max_threads c)) Acquire).

(** [spin_lock] has no initialiser: [ResourceAtomicSpin] may start with
    any value in its lock cell. *)
Definition initial (c : config) (s : state) : Prop :=
  val (mem s) = 0 ∧
  threads s = replicate (Z.to_nat (max_threads c)) Acquire ∧
  (resource c ≠ ResourceAtomicSpin → lock (mem s) = 0).

Definition reachable (c : config) (s : state) : Prop :=
  ∃ s0 ls, initial c s0 ∧ run c s0 ls = Some s.

(** All workers have returned: [execSync] gets past its joins. *)
Definition joined (s : state) : Prop := Forall (λ p, p = Done) (threads s).

(** Inside the protected code of [inc]: from the end of the locking loop
    to the release. *)
Definition protected (p : point) : bool :=
  match p with
  | Test | IncRead | IncWrite _ | Copy | Release _ => true
  | _ => false
  end.

(** ** A call of [inc] on its own *)

(** The steps of one call, from the locking loop to the [return], with
    no other worker in between.  [sp] says which of the exchanges fail
    spuriously. *)
Fixpoint inc_alone (fuel : nat) (r : Resource) (max_threads : Z)
    (thread_num : nat) (sp : nat → bool) (sh : shared) (p : point)
  : option (Z * shared) :=
  match p with
  | Return ret => Some (ret, sh)
  | _ =>
      match fuel with
      | O => None
      | S f =>
          '(sh', p') ← inc r max_threads thread_num (sp f) sh p;
          inc_alone f r max_threads thread_num sp sh' p'
      end
  end.

(** What the contract of [turnIncrement] says the counter is after a
    call. *)
Definition turn_value (max_threads : Z) (thread_num : nat) (v : Z) : Z :=
  if bool_decide (v mod max_threads = Z.of_nat thread_num) then v + 1 else v.

(** ** Invariants of a run *)

(** What a worker's control point says about the counter. *)
Definition local_ok (c : config) (sh : shared) (i : nat) (p : point) : Prop :=
  match p with
  | IncRead => Z.rem (val sh) (max_threads c) = Z.of_nat i
  | IncWrite tmp => Z.rem (val sh) (max_threads c) = Z.of_nat i ∧ tmp = val sh
  | Release r | Return r => r ≤ val sh
  | Done => max_count c ≤ val sh
  | _ => True
  end.

Definition turn_inv (c : config) (s : state) : Prop :=
  length (threads s) = Z.to_nat (max_threads c) ∧
  0 ≤ val (mem s) ∧
  ∀ i p, threads s !! i = Some p → local_ok c (mem s) i p.

(** ** The lock of [ResourceAtomicFlag] and [ResourceMutex]

    The cell is 1 exactly while one worker is in the protected code,
    and no second worker is there. *)
Definition lock_inv (s : state) : Prop :=
  (lock (mem s) = 0 ∧ ∀ i p, threads s !! i = Some p → protected p = false) ∨
  (lock (mem s) = 1 ∧
   ∃ i p, threads s !! i = Some p ∧ protected p = true ∧
          ∀ j q, threads s !! j = Some q → protected q = true → j = i).

(** The worker is on its way out: what it returns will end its loop. *)
Definition leaving (c : config) (sh : shared) (p : point) : Prop :=
  match p with
  | Copy => max_count c ≤ val sh
  | Release r | Return r => max_count c ≤ r
  | Done => True
  | _ => False
  end.

(** The first value from which an increment ends the incrementing
    worker's loop. *)
Definition last_round (c : config) : Z := Z.max 0 (max_count c - 1).

Definition bound_inv (c : config) (s : state) : Prop :=
  val (mem s) ≤ last_round c + max_threads c ∧
  ∀ j, last_round c ≤ j < val (mem s) →
       ∃ p, threads s !! Z.to_nat (j mod max_threads c) = Some p ∧
            leaving c (mem s) p.

(** ** Counting increments along a run *)

(** The step [l] taken in [s] is worker [i]'s store of [val++]. *)
Definition increments_at (s : state) (l : label) (i : nat) : bool :=
  bool_decide (l.1 = i) &&
  match threads s !! i with
  | Some (IncWrite _) => true
  | _ => false
  end.

(** How many times worker [i] increments the counter in the run [ls]
    from [s]. *)
Fixpoint increments (c : config) (i : nat) (s : state) (ls : list label) : nat :=
  match ls with
  | [] => 0%nat
  | l :: ls' =>
      match step c s l with
      | Some s' => ((if increments_at s l i then 1 else 0) + increments c i s' ls')%nat
      | None => 0%nat
      end
  end.

(** ** Termination *)

(** Every run from [s] is finite, whatever the scheduler does. *)
Definition terminates (c : config) (s : state) : Prop :=
  Acc (λ s2 s1, ∃ l, step c s1 l = Some s2) s.

(** The steps a worker still has to take in the call it is in, counted
    from the end of the locking loop to the test in [worker]. *)
Definition pending (p : point) : nat :=
  match p with
  | Test => 6
  | IncRead => 5
  | IncWrite _ => 4
  | Copy => 3
  | Release _ => 2
  | Return _ => 1
  | Acquire | Done => 0
  end.

(** The worker has not returned. *)
Definition alive (p : point) : nat :=
  match p with
  | Done => 0
  | _ => 1
  end.

(** No worker is in the middle of a call: each is at its locking loop or
    has returned. *)
Definition calm (s : state) : Prop :=
  ∀ i p, threads s !! i = Some p → p = Acquire ∨ p = Done.

(** ** Whose value a worker returns *)

(** With a lock that excludes and two workers or more, the value a
    worker copies is never one on which it has the turn: had it the
    turn, it incremented. *)
Definition off_turn (c : config) (sh : shared) (i : nat) (p : point) : Prop :=
  match p with
  | Copy => Z.rem (val sh) (max_threads c) ≠ Z.of_nat i
  | Release r | Return r => Z.rem r (max_threads c) ≠ Z.of_nat i
  | Done => val sh = max_count c → Z.rem (max_count c) (max_threads c) ≠ Z.of_nat i
  | _ => True
  end.

Definition off_turn_inv (c : config) (s : state) : Prop :=
  ∀ i p, threads s !! i = Some p → off_turn c (mem s) i p.

(** The number of values below [v] on which worker [i] of [n] has the
    turn. *)
Definition turns (n : Z) (i : nat) (v : Z) : Z := (v + n - 1 - Z.of_nat i) / n.

(** ** Schedules *)

(** The workers call in turn and each call runs to its end before the
    next starts: call number [k] is made by worker [k mod n], and takes
    the seven steps of a call that increments. *)
Definition round_robin (n calls : nat) : list label :=
  flat_map (λ k, replicate 7 ((k `mod` n)%nat, false)) (seq 0 calls).

(** ** The target count on the command line *)

Definition max_count_dflt : Z := 1000000.

Definition INT_MIN : Z := -2147483648.

(** [std::stoi] is the standard library's, not the program's.  Its
    result is a value or an exception ([None]).  This model follows the
    library's contract for base 10: leading white space is skipped, a
    sign may follow, then the longest run of digits is read; no digit
    there is [invalid_argument], a value outside [int] is
    [out_of_range]; what follows the digits is ignored. *)
Definition is_space (a : ascii) : bool :=
  let n := Z.of_N (N_of_ascii a) in
  bool_decide (n = 32) || (bool_decide (9 ≤ n) && bool_decide (n ≤ 13)).

Definition digit_of (a : ascii) : option Z :=
  let n := Z.of_N (N_of_ascii a) in
  if bool_decide (48 ≤ n) && bool_decide (n ≤ 57) then Some (n - 48) else None.

Fixpoint skip_space (s : string) : string :=
  match s with
  | String a s' => if is_space a then skip_space s' else s
  | EmptyString => s
  end.

Fixpoint read_digits (acc : Z) (s : string) : Z :=
  match s with
  | String a s' =>
      match digit_of a with
      | Some d => read_digits (10 * acc + d) s'
      | None => acc
      end
  | EmptyString => acc
  end.

Definition read_number (negative : bool) (s : string) : option Z :=
  match s with
  | String a _ =>
      match digit_of a with
      | Some _ =>
          let v := if negative then - read_digits 0 s else read_digits 0 s in
          if bool_decide (INT_MIN ≤ v) && bool_decide (v ≤ INT_MAX)
          then Some v else None
      | None => None
      end
  | EmptyString => None
  end.

Definition std_stoi (s : string) : option Z :=
  match skip_space s with
  | String "-"%char s' => read_number true s'
  | String "+"%char s' => read_number false s'
  | s' => read_number false s'
  end.

(** [main], up to the value of [max_count] it passes on:
    [[
    int max_count = max_count_dflt;
    if (argc > 1) {
        try {
            max_count = std::stoi(argv[1]);
            max_count = max_count < 0 ? max_count_dflt : max_count;
        } catch (...) {
            max_count = max_count_dflt;
        }
    }
    ]]
    [argv] is the whole argument vector, the program's name first. *)
Definition main_max_count (stoi : string → option Z) (argv : list string) : Z :=
  match argv with
  | _ :: arg :: _ =>
      match stoi arg with
      | Some v => if bool_decide (v < 0) then max_count_dflt else v
      | None => max_count_dflt
      end
  | _ => max_count_dflt
  end.

(** The argument written as decimal digits, most significant first, and
    the number the digits denote. *)
Definition digit_char (d : nat) : ascii := ascii_of_nat (48 + d).

Fixpoint decimal (ds : list nat) : string :=
  match ds with
  | [] => EmptyString
  | d :: ds' => String (digit_char d) (decimal ds')
  end.

Definition decimal_value (ds : list nat) : Z :=
  fold_left (λ acc d, 10 * acc + Z.of_nat d) ds 0.

(** ** Stores of the counter *)

(** The step [l] taken in [s] is the store of a [val++], by whichever
    worker. *)
Definition is_store (s : state) (l : label) : bool :=
  match threads s !! l.1 with
  | Some (IncWrite _) => true
  | _ => false
  end.

(** How many stores of [val++] the run [ls] from [s] makes. *)
Fixpoint stores (c : config) (s : state) (ls : list label) : nat :=
  match ls with
  | [] => 0%nat
  | l :: ls' =>
      match step c s l with
      | Some s' => ((if is_store s l then 1 else 0) + stores c s' ls')%nat
      | None => 0%nat
      end
  end.

(** Between the test that found the turn and the store. *)
Definition incrementing (p : point) : bool :=
  match p with
  | IncRead | IncWrite _ => true
  | _ => false
  end.

(** ** The runs of [main] *)

(** [main] measures six runs, each on a fresh resource object, with the
    variable [max_threads] doubled and reset in between:
    [[
    int max_threads = max_threads_dflt;
    ResourceAtomicSpin rspin;    execSync(max_threads, max_count, rspin);
    ResourceAtomicSpin rspin2;   max_threads *= 2; execSync(..., rspin2);
    ResourceAtomicFlag rstdspin; max_threads = max_threads_dflt; execSync(..., rstdspin);
    ResourceAtomicFlag rstdspin2; max_threads *= 2; execSync(..., rstdspin2);
    ResourceMutex rm;            max_threads = max_threads_dflt; execSync(..., rm);
    ResourceMutex rm2;           max_threads *= 2; execSync(..., rm2);
    ]]
    [max_threads_dflt] is what [std::thread::hardware_concurrency()]
    gave. *)
Definition main_runs (max_threads_dflt max_count : Z) : list config :=
  let max_threads := max_threads_dflt in
  let run1 := Config ResourceAtomicSpin max_threads max_count in
  let max_threads := max_threads * 2 in
  let run2 := Config ResourceAtomicSpin max_threads max_count in
  let max_threads := max_threads_dflt in
  let run3 := Config ResourceAtomicFlag max_threads max_count in
  let max_threads := max_threads * 2 in
  let run4 := Config ResourceAtomicFlag max_threads max_count in
  let max_threads := max_threads_dflt in
  let run5 := Config ResourceMutex max_threads max_count in
  let max_threads := max_threads * 2 in
  let run6 := Config ResourceMutex max_threads max_count in
  [run1; run2; run3; run4; run5; run6].

(** ** One worker *)

(** With one worker, how far a state is from the end of the run: the
    increments still possible, and within a call the steps up to the
    store and after it. *)
Definition lone_rank (s : state) : nat :=
  match threads s !! 0%nat with
  | Some Done => 0
  | Some (IncWrite _) => 1
  | Some IncRead => 2
  | Some Test => 3
  | Some Acquire => if bool_decide (lock (mem s) = 0) then 5 else 4
  | Some (Return _) => 6
  | Some (Release _) => 7
  | Some Copy => 8
  | None => 0
  end.

Definition lone_measure (c : config) (s : state) : nat :=
  (8 * Z.to_nat (last_round c + 1 - val (mem s)) + lone_rank s)%nat.

(** ** The store of [val++] at [INT_MAX] *)

(** A value brought back into [int] the two's complement way. *)
Definition wrap_int (z : Z) : Z := (z + 2147483648) mod 4294967296 - 2147483648.

(** [val++] at [INT_MAX] is undefined in C++, and [incr] has no result
    there.  The code the usual compilers produce for the [volatile]
    counter stores the wrapped sum, [INT_MIN].  [step_wrap] is [step]
    with that store in place of the undefined one. *)
Definition step_wrap (c : config) (s : state) (l : label) : option state :=
  match threads s !! l.1 with
  | Some (IncWrite tmp) =>
      Some (State (Shared (wrap_int (tmp + 1)) (lock (mem s)))
                  (<[l.1 := Copy]> (threads s)))
  | _ => step c s l
  end.

Fixpoint run_wrap (c : config) (s : state) (ls : list label) : option state :=
  match ls with
  | [] => Some s
  | l :: ls' => s' ← step_wrap c s l; run_wrap c s' ls'
  end.

Definition reachable_wrap (c : config) (s : state) : Prop :=
  ∃ s0 ls, initial c s0 ∧ run_wrap c s0 ls = Some s.

(** The range in which no [val++] of a run overflows: the counter stops
    at [max(0, max_count - 1) + max_threads] at the latest. *)
Definition in_range (c : config) : Prop :=
  Z.max 0 (max_count c - 1) + max_threads c ≤ INT_MAX.

(** ** Numerals *)

(** Following the spec's words, "numeric": the argument is a decimal
    numeral, that is an optional sign and then digits only, at least
    one. *)
Fixpoint all_digits (s : string) : bool :=
  match s with
  | EmptyString => true
  | String a s' => bool_decide (is_Some (digit_of a)) && all_digits s'
  end.

Definition spec_numeric (s : string) : bool :=
  match s with
  | String "-"%char (String a s') | String "+"%char (String a s') =>
      all_digits (String a s')
  | String a s' => all_digits (String a s')
  | EmptyString => false
  end.

(** What [std::stoi] looks at: the argument after leading white space
    and one sign, and whether a digit stands there. *)
Definition after_sign (s : string) : string :=
  match s with
  | String "-"%char s' | String "+"%char s' => s'
  | _ => s
  end.

Definition starts_with_digit (s : string) : bool :=
  match s with
  | String a _ => bool_decide (is_Some (digit_of a))
  | EmptyString => false
  end.

(** ** What a worker is returned *)




(** ** Basic facts about steps *)

Lemma step_inv c s l s' :
  step c s l = Some s' →
  ∃ p sh p', threads s !! l.1 = Some p ∧
             worker c l.1 l.2 (mem s) p = Some (sh, p') ∧
             s' = State sh (<[l.1 := p']> (threads s)).
Proof.
  unfold step. intros H.
  destruct (threads s !! l.1) as [p|] eqn:Hp; simpl in H; [|done].
  destruct (worker c l.1 l.2 (mem s) p) as [[sh p']|] eqn:Hw; simpl in H; [|done].
  simplify_eq. by eexists _, _, _.
Qed.

Lemma step_intro c s i b p sh p' :
  threads s !! i = Some p →
  worker c i b (mem s) p = Some (sh, p') →
  step c s (i, b) = Some (State sh (<[i := p']> (threads s))).
Proof. unfold step. simpl. intros -> . simpl. by intros ->. Qed.

Lemma run_app c s ls1 ls2 :
  run c s (ls1 ++ ls2) = s' ← run c s ls1; run c s' ls2.
Proof.
  revert s. induction ls1 as [|l ls1 IH]; intros s; simpl; [done|].
  destruct (step c s l); simpl; [apply IH|done].
Qed.

Lemma run_snoc c s ls l s1 s2 :
  run c s ls = Some s1 → step c s1 l = Some s2 → run c s (ls ++ [l]) = Some s2.
Proof. intros H1 H2. rewrite run_app, H1. simpl. by rewrite H2. Qed.

Lemma reachable_initial c s : initial c s → reachable c s.
Proof. intros H. exists s, []. done. Qed.

Lemma reachable_step c s l s' :
  reachable c s → step c s l = Some s' → reachable c s'.
Proof.
  intros (s0 & ls & H0 & Hr) Hs. exists s0, (ls ++ [l]). eauto using run_snoc.
Qed.

Lemma reachable_run c s ls s' :
  reachable c s → run c s ls = Some s' → reachable c s'.
Proof.
  revert s. induction ls as [|l ls IH]; intros s Hs Hr; simpl in Hr.
  - by simplify_eq.
  - destruct (step c s l) as [s1|] eqn:H1; simpl in Hr; [|done].
    eauto using reachable_step.
Qed.

(** Induction over the reachable states. *)
Lemma reachable_ind' c (P : state → Prop) :
  (∀ s, initial c s → P s) →
  (∀ s l s', reachable c s → P s → step c s l = Some s' → P s') →
  ∀ s, reachable c s → P s.
Proof.
  intros Hi Hs s (s0 & ls & H0 & Hr).
  assert (Hgen : ∀ ls s1, reachable c s1 → P s1 → run c s1 ls = Some s → P s).
  { clear ls Hr. induction ls as [|l ls IH]; intros s1 Hre HP Hr; simpl in Hr.
    - by simplify_eq.
    - destruct (step c s1 l) as [s2|] eqn:H2; simpl in Hr; [|done].
      eapply IH; [| |done]; eauto using reachable_step. }
  eapply Hgen; eauto using reachable_initial.
Qed.

(** The cases of a step of one worker, as equations. *)
Ltac worker_cases H :=
  unfold worker, inc, acquire, incr in H;
  repeat match type of H with
         | context [match ?x with _ => _ end] =>
             match type of x with
             | point => destruct x
             | Resource => destruct x
             end
         end;
  simpl in H;
  repeat (case_bool_decide || case_decide); simpl in H;
  repeat match type of H with
         | context [negb ?b] => destruct b; simpl in H
         end;
  simplify_eq; simpl in *.

(** ** The turn discipline

    Whatever the lock does, the test [val % max_threads == thread_num]
    lets one worker at a time through to [val++]: the worker whose
    number is the counter's residue.  This holds for the three classes,
    as the workers' numbers are distinct. *)

Section Invariants.
Context (c : config).
Hypothesis Hpos : 0 < max_threads c.

Lemma turn_inv_initial s : initial c s → turn_inv c s.
Proof.
  intros (Hv & Ht & _). split_and!.
  - by rewrite Ht, length_replicate.
  - lia.
  - intros i p. rewrite Ht. intros [-> _]%lookup_replicate. done.
Qed.

Lemma turn_inv_step s l s' :
  turn_inv c s → step c s l = Some s' → turn_inv c s'.
Proof.
  intros (Hlen & Hv & Hloc) (p & sh & p' & Hp & Hw & ->)%step_inv.
  destruct l as [i b]; simpl in *.
  pose proof (Hloc _ _ Hp) as Hi.
  assert (Hlt : (i < length (threads s))%nat) by eauto using lookup_lt_Some.
  split_and!; simpl.
  - by rewrite length_insert.
  - worker_cases Hw; lia.
  - intros j q Hq. destruct (decide (j = i)) as [->|Hne].
    + rewrite list_lookup_insert_eq in Hq by done. simplify_eq.
      worker_cases Hw; try done; lia.
    + rewrite list_lookup_insert_ne in Hq by done.
      pose proof (Hloc _ _ Hq) as Hj.
      worker_cases Hw; try done;
        destruct q; simpl in *; try done; try lia.
Qed.

Lemma turn_inv_reachable s : reachable c s → turn_inv c s.
Proof.
  induction 1 using reachable_ind'; eauto using turn_inv_initial, turn_inv_step.
Qed.

(** The counter never goes down, and a step adds at most one. *)
Lemma step_val s l s' :
  turn_inv c s → step c s l = Some s' →
  val (mem s') = val (mem s) ∨
  (val (mem s') = val (mem s) + 1 ∧
   threads s !! l.1 = Some (IncWrite (val (mem s))) ∧
   Z.rem (val (mem s)) (max_threads c) = Z.of_nat l.1).
Proof.
  intros (Hlen & Hv & Hloc) (p & sh & p' & Hp & Hw & ->)%step_inv.
  pose proof (Hloc _ _ Hp) as Hi. simpl.
  worker_cases Hw; auto. right. by destruct Hi as [? ->].
Qed.

Lemma lock_inv_initial s : initial c s → resource c ≠ ResourceAtomicSpin → lock_inv s.
Proof.
  intros (Hv & Ht & Hl) Hr. left. split; [auto|].
  intros i p. rewrite Ht. by intros [-> _]%lookup_replicate.
Qed.

(** A step that moves a worker without changing the lock cell or
    whether the worker is in the protected code. *)
Lemma lock_inv_keep s i p p' sh :
  lock_inv s → threads s !! i = Some p →
  lock sh = lock (mem s) → protected p' = protected p →
  lock_inv (State sh (<[i := p']> (threads s))).
Proof.
  intros Hinv Hp Hl Hpr.
  assert (Hlt : (i < length (threads s))%nat) by eauto using lookup_lt_Some.
  destruct Hinv as [[H0 Hno]|(H1 & k & q & Hk & Hq & Huniq)]; [left|right]; simpl.
  - split; [congruence|]. intros j r Hj.
    destruct (decide (j = i)) as [->|Hne].
    + rewrite list_lookup_insert_eq in Hj by done. simplify_eq.
      rewrite Hpr. eauto.
    + rewrite list_lookup_insert_ne in Hj by done. eauto.
  - split; [congruence|].
    destruct (decide (k = i)) as [->|Hne].
    + simplify_eq. exists i, p'. split_and!.
      * by rewrite list_lookup_insert_eq.
      * congruence.
      * intros j r Hj Hr. destruct (decide (j = i)) as [->|Hne]; [done|].
        rewrite list_lookup_insert_ne in Hj by done. eauto.
    + exists k, q. split_and!.
      * by rewrite list_lookup_insert_ne.
      * done.
      * intros j r Hj Hr. destruct (decide (j = i)) as [->|Hne'].
        -- rewrite list_lookup_insert_eq in Hj by done. simplify_eq.
           rewrite Hpr in Hr. eauto.
        -- rewrite list_lookup_insert_ne in Hj by done. eauto.
Qed.

Lemma lock_inv_step s l s' :
  resource c ≠ ResourceAtomicSpin →
  lock_inv s → step c s l = Some s' → lock_inv s'.
Proof.
  intros Hr Hinv (p & sh & p' & Hp & Hw & ->)%step_inv.
  destruct l as [i b]; simpl in *.
  assert (Hlt : (i < length (threads s))%nat) by eauto using lookup_lt_Some.
  destruct (decide (lock sh = lock (mem s) ∧ protected p' = protected p))
    as [[Hl Hpr]|Hchg]; [by eapply lock_inv_keep|].
  destruct Hinv as [[H0 Hno]|(H1 & k & q & Hk & Hq & Huniq)].
  - (* the cell is 0: the step takes the lock *)
    pose proof (Hno _ _ Hp) as Hpi.
    worker_cases Hw; try done; try (exfalso; apply Hchg; split; (done || congruence)).
    all: right; split; [done|]; exists i, Test; simpl; split_and!;
      [by rewrite list_lookup_insert_eq|done|];
      intros j r Hj Hrj; destruct (decide (j = i)) as [->|Hne]; [done|];
      rewrite list_lookup_insert_ne in Hj by done;
      apply Hno in Hj; congruence.
  - (* the cell is 1: the step gives the lock back, or waits *)
    worker_cases Hw; try done; try (exfalso; apply Hchg; split; (done || congruence)).
    all: left; split; [done|]; simpl; intros j r Hj;
      destruct (decide (j = i)) as [->|Hne];
      [rewrite list_lookup_insert_eq in Hj by done; by simplify_eq|];
      rewrite list_lookup_insert_ne in Hj by done;
      destruct (protected r) eqn:Hr'; [|done];
      exfalso; apply Hne; rewrite (Huniq _ _ Hj Hr'); symmetry; by eapply Huniq.
Qed.

Lemma lock_inv_reachable s :
  resource c ≠ ResourceAtomicSpin → reachable c s → lock_inv s.
Proof.
  intros Hr. induction 1 using reachable_ind';
    eauto using lock_inv_initial, lock_inv_step.
Qed.

(** Mutual exclusion, for the two classes whose lock works. *)
Lemma mutual_exclusion s i j p q :
  resource c ≠ ResourceAtomicSpin → reachable c s →
  threads s !! i = Some p → threads s !! j = Some q →
  protected p = true → protected q = true → i = j.
Proof.
  intros Hr Hre Hi Hj Hp Hq.
  destruct (lock_inv_reachable s Hr Hre) as [[_ Hno]|(_ & k & r & _ & _ & Huniq)].
  - apply Hno in Hi. congruence.
  - rewrite (Huniq _ _ Hi Hp). symmetry. by eapply Huniq.
Qed.

(** So the protected code runs as one piece: while a worker is in it, no
    other worker changes the counter. *)
Lemma protected_code_is_atomic s l s' i p :
  resource c ≠ ResourceAtomicSpin → reachable c s →
  threads s !! i = Some p → protected p = true → l.1 ≠ i →
  step c s l = Some s' → val (mem s') = val (mem s).
Proof.
  intros Hr Hre Hi Hp Hne Hs.
  destruct (step_val s l s' (turn_inv_reachable s Hre) Hs) as [?|(_ & Hw & _)]; [done|].
  destruct Hne. by eapply (mutual_exclusion s l.1 i).
Qed.

(** ** How far the counter can go

    A worker that increments the counter from [max_count - 1] or more
    gets back at least [max_count] and leaves its loop, so it does not
    increment again.  The workers that did so are the ones whose
    numbers are the residues of the values passed. *)

Lemma bound_inv_initial s : initial c s → bound_inv c s.
Proof.
  intros (Hv & _ & _). unfold bound_inv, last_round. rewrite Hv. split; [lia|].
  intros j Hj. lia.
Qed.

Lemma bound_inv_step s l s' :
  turn_inv c s → bound_inv c s → step c s l = Some s' → bound_inv c s'.
Proof.
  intros Ht [Hb Hch] Hs.
  pose proof (step_val _ _ _ Ht Hs) as Hval.
  pose proof Ht as (Hlen & Hv & Hloc).
  apply step_inv in Hs as (p & sh & p' & Hp & Hw & ->).
  destruct l as [i b]; simpl in *.
  assert (Hlt : (i < length (threads s))%nat) by eauto using lookup_lt_Some.
  assert (Hstable : ∀ j q, threads s !! j = Some q → leaving c (mem s) q →
            ∃ q', <[i:=p']> (threads s) !! j = Some q' ∧ leaving c sh q').
  { intros j q Hj Hq. destruct (decide (j = i)) as [->|Hne].
    - simplify_eq. exists p'. rewrite list_lookup_insert_eq by done.
      split; [done|]. worker_cases Hw; simpl in *; try done; lia.
    - exists q. rewrite list_lookup_insert_ne by done. split; [done|].
      destruct q; simpl in *; try done. lia. }
  destruct Hval as [Heq|(Hinc & Hpi & Hturn)].
  - split; simpl; [lia|]. intros j Hj. rewrite Heq in Hj.
    destruct (Hch j Hj) as (q & Hq & Hlq). eauto.
  - simplify_eq. worker_cases Hw.
    rewrite Z.rem_mod_nonneg in Hturn by lia.
    assert (Hless : val (mem s) < (last_round c) + max_threads c).
    { destruct (decide (val (mem s) < (last_round c) + max_threads c)); [done|].
      assert (val (mem s) = (last_round c) + 1 * max_threads c) as Hfull by lia.
      destruct (Hch (last_round c)) as (q & Hq & Hlq); [lia|].
      rewrite Hfull, Z_mod_plus_full in Hturn.
      rewrite Hturn, Nat2Z.id in Hq. by simplify_eq. }
    split; simpl; [lia|]. intros j Hj.
    destruct (decide (j = val (mem s))) as [->|Hne].
    + exists Copy. rewrite Hturn, Nat2Z.id, list_lookup_insert_eq by done.
      split; [done|]. simpl. unfold last_round in Hj. lia.
    + destruct (Hch j) as (q & Hq & Hlq); [lia|]. eauto.
Qed.

Lemma bound_inv_reachable s : reachable c s → bound_inv c s.
Proof.
  induction 1 using reachable_ind';
    eauto using bound_inv_initial, bound_inv_step, turn_inv_reachable.
Qed.

(** A worker that can still increment finds the counter short of the
    bound; in particular [val++] does not overflow when the bound fits
    in an [int]. *)
Lemma turn_below_bound s i p :
  turn_inv c s → bound_inv c s →
  threads s !! i = Some p → ¬ leaving c (mem s) p →
  Z.rem (val (mem s)) (max_threads c) = Z.of_nat i →
  val (mem s) < (last_round c) + max_threads c.
Proof.
  intros (Hlen & Hv & Hloc) [Hb Hch] Hp Hnl Hturn.
  rewrite Z.rem_mod_nonneg in Hturn by lia.
  destruct (decide (val (mem s) < (last_round c) + max_threads c)); [done|].
  assert (val (mem s) = (last_round c) + 1 * max_threads c) as Hfull by lia.
  destruct (Hch (last_round c)) as (q & Hq & Hlq); [lia|].
  rewrite Hfull, Z_mod_plus_full in Hturn.
  rewrite Hturn, Nat2Z.id in Hq. by simplify_eq.
Qed.

End Invariants.

(** ** A call of [inc] on its own *)

Lemma inc_alone_S f r n i sp sh p :
  (∀ ret, p ≠ Return ret) →
  inc_alone (S f) r n i sp sh p
  = '(sh', p') ← inc r n i (sp f) sh p; inc_alone f r n i sp sh' p'.
Proof. intros Hp. destruct p; try done. by destruct (Hp ret). Qed.

Lemma incr_Some v : v < INT_MAX → incr v = Some (v + 1).
Proof. intros Hv. unfold incr. by rewrite decide_True. Qed.

Example incr_at_INT_MAX : incr INT_MAX = None.
Proof. reflexivity. Qed.

(** The protected code and the release, from the test on. *)
Lemma inc_alone_protected f r n i sp v l :
  0 < n → 0 ≤ v → (Z.rem v n = Z.of_nat i → v < INT_MAX) →
  inc_alone (5 + f) r n i sp (Shared v l) Test
  = Some (turn_value n i v, Shared (turn_value n i v) 0).
Proof.
  intros Hn Hv Hfit. unfold turn_value.
  rewrite <- (Z.rem_mod_nonneg v n) by lia.
  change (5 + f)%nat with (S (S (S (S (S f))))).
  rewrite inc_alone_S by done. cbn [inc val lock].
  case_bool_decide; cbn [mbind option_bind].
  - rewrite inc_alone_S by done. cbn [inc val lock mbind option_bind].
    rewrite inc_alone_S by done. cbn [inc val lock].
    rewrite incr_Some by auto. cbn [mbind option_bind].
    rewrite inc_alone_S by done. cbn [inc val lock mbind option_bind].
    rewrite inc_alone_S by done. cbn [inc val lock mbind option_bind].
    by destruct f.
  - rewrite inc_alone_S by done. cbn [inc val lock mbind option_bind].
    rewrite inc_alone_S by done. cbn [inc val lock mbind option_bind].
    by destruct f.
Qed.

Lemma inc_alone_spec r n i sp v l :
  0 < n → 0 ≤ v → (Z.rem v n = Z.of_nat i → v < INT_MAX) →
  (r ≠ ResourceAtomicSpin → l = 0) →
  inc_alone 7 r n i sp (Shared v l) Acquire
  = Some (turn_value n i v, Shared (turn_value n i v) 0).
Proof.
  intros Hn Hv Hfit Hl.
  rewrite inc_alone_S by done.
  destruct r; cbn [inc acquire val lock].
  - destruct (bool_decide (l = 0) && negb (sp 6%nat)); cbn [mbind option_bind].
    + rewrite inc_alone_S by done. cbn [inc acquire val lock].
      rewrite bool_decide_false by done. cbn [andb mbind option_bind].
      by apply (inc_alone_protected 0).
    + by apply (inc_alone_protected 1).
  - rewrite Hl by done. rewrite bool_decide_true by done. cbn [mbind option_bind].
    by apply (inc_alone_protected 1).
  - rewrite Hl by done. rewrite bool_decide_true by done. cbn [mbind option_bind].
    by apply (inc_alone_protected 1).
Qed.

(** A call on its own is a run in which only that worker steps. *)
Lemma inc_alone_run c s i sp fuel p ret sh :
  threads s !! i = Some p → p ≠ Done →
  inc_alone fuel (resource c) (max_threads c) i sp (mem s) p = Some (ret, sh) →
  ∃ ls, Forall (λ l : label, l.1 = i) ls ∧
        run c s ls = Some (State sh (<[i := Return ret]> (threads s))).
Proof.
  revert s p. induction fuel as [|f IH]; intros s p Hp Hnd Hcall.
  - destruct p; simpl in Hcall; simplify_eq.
    exists []. split; [done|]. simpl. rewrite list_insert_id by done. by destruct s.
  - assert (Hcase : (∃ r, p = Return r) ∨ ∀ r, p ≠ Return r).
    { destruct p; eauto. }
    destruct Hcase as [[r ->]|Hnr].
    { simpl in Hcall. simplify_eq. exists []. split; [done|]. simpl.
      rewrite list_insert_id by done. by destruct s. }
    rewrite inc_alone_S in Hcall by done.
    destruct (inc (resource c) (max_threads c) i (sp f) (mem s) p)
      as [[sh' p']|] eqn:Hinc; simpl in Hcall; [|done].
    assert (Hw : worker c i (sp f) (mem s) p = Some (sh', p')).
    { by destruct p. }
    assert (Hlt : (i < length (threads s))%nat) by eauto using lookup_lt_Some.
    assert (Hnd' : p' ≠ Done).
    { intros ->. worker_cases Hinc. }
    destruct (IH (State sh' (<[i := p']> (threads s))) p') as (ls & Hall & Hrun);
      [by simpl; rewrite list_lookup_insert_eq|done|done|].
    exists ((i, sp f) :: ls). split; [by constructor|].
    simpl. rewrite (step_intro _ _ _ _ _ _ _ Hp Hw). simpl.
    rewrite Hrun. simpl. by rewrite list_insert_insert_eq.
Qed.

(** ** The claims about one call and one worker *)

(** C1 (the code departs from it).  In [ResourceAtomicSpin] the locking
    loop goes round again when the exchange succeeds and ends when it
    fails: with the cell at 1 (held) the caller goes on to the protected
    code with the cell untouched, and with the cell at 0 (free) it
    writes 1 and tries again.  [ResourceAtomicFlag], on the same two
    cells, waits on 1 and enters on 0.  The release stores 0 in both. *)
Theorem spin_lock_loop_is_inverted (n v : Z) (i : nat) (b : bool) :
  inc ResourceAtomicSpin n i b (Shared v 1) Acquire = Some (Shared v 1, Test) ∧
  inc ResourceAtomicSpin n i false (Shared v 0) Acquire = Some (Shared v 1, Acquire) ∧
  inc ResourceAtomicFlag n i b (Shared v 1) Acquire = Some (Shared v 1, Acquire) ∧
  inc ResourceAtomicFlag n i b (Shared v 0) Acquire = Some (Shared v 1, Test) ∧
  ∀ r l ret, inc r n i b (Shared v l) (Release ret) = Some (Shared v 0, Return ret).
Proof. by destruct b. Qed.

(** C2 (the code departs from it).  With [ResourceAtomicSpin] and two
    workers, three steps from the start put both workers in the
    protected code: worker 0 takes the cell, fails its next exchange and
    enters; worker 1 fails its first exchange and enters too. *)
Theorem spin_two_workers_in_protected_code :
  let c := Config ResourceAtomicSpin 2 1 in
  run c (execSync c) [(0%nat, false); (0%nat, false); (1%nat, false)]
  = Some (State (Shared 0 1) [Test; Test]) ∧
  reachable c (State (Shared 0 1) [Test; Test]) ∧
  protected Test = true.
Proof.
  split_and!; [done| |done].
  exists (execSync (Config ResourceAtomicSpin 2 1)),
    [(0%nat, false); (0%nat, false); (1%nat, false)].
  by split.
Qed.



(** ** Runs: the counter only grows, and not far past [max_count] *)

Section Runs.
Context (c : config).
Hypothesis Hpos : 0 < max_threads c.

Lemma turn_inv_run s ls s' :
  turn_inv c s → run c s ls = Some s' → turn_inv c s'.
Proof.
  revert s. induction ls as [|l ls IH]; intros s Hinv Hr; simpl in Hr.
  - by simplify_eq.
  - destruct (step c s l) as [s1|] eqn:H1; simpl in Hr; [|done].
    eauto using turn_inv_step.
Qed.

Lemma run_val_mono s ls s' :
  turn_inv c s → run c s ls = Some s' → val (mem s) ≤ val (mem s').
Proof.
  revert s. induction ls as [|l ls IH]; intros s Hinv Hr; simpl in Hr.
  - simplify_eq. lia.
  - destruct (step c s l) as [s1|] eqn:H1; simpl in Hr; [|done].
    pose proof (step_val _ _ _ _ Hinv H1).
    pose proof (IH s1 (turn_inv_step c Hpos _ _ _ Hinv H1) Hr). lia.
Qed.

(** A worker on its way out stays so, whoever steps. *)
Lemma leaving_step s l s' j q :
  turn_inv c s → step c s l = Some s' →
  threads s !! j = Some q → leaving c (mem s) q →
  ∃ q', threads s' !! j = Some q' ∧ leaving c (mem s') q'.
Proof.
  intros Ht Hs Hj Hq.
  pose proof (step_val _ _ _ _ Ht Hs) as Hval.
  apply step_inv in Hs as (p & sh & p' & Hp & Hw & ->).
  destruct l as [i b]; simpl in *.
  assert (Hlt : (i < length (threads s))%nat) by eauto using lookup_lt_Some.
  destruct (decide (j = i)) as [->|Hne].
  - simplify_eq. exists p'. rewrite list_lookup_insert_eq by done.
    split; [done|]. worker_cases Hw; simpl in *; try done; lia.
  - exists q. rewrite list_lookup_insert_ne by done. split; [done|].
    destruct q; simpl in *; try done. lia.
Qed.

(** It does not increment again. *)
Lemma increments_leaving s ls i q :
  turn_inv c s → threads s !! i = Some q → leaving c (mem s) q →
  increments c i s ls = 0%nat.
Proof.
  revert s q. induction ls as [|l ls IH]; intros s q Hinv Hi Hq; simpl; [done|].
  destruct (step c s l) as [s1|] eqn:H1; [|done].
  destruct (leaving_step _ _ _ _ _ Hinv H1 Hi Hq) as (q' & Hi' & Hq').
  rewrite (IH s1 q') by eauto using turn_inv_step.
  unfold increments_at. rewrite Hi. destruct q; simpl in *; try done;
    by rewrite andb_false_r.
Qed.

(** Once the counter has reached [max_count], a worker increments at
    most once more. *)
Lemma increments_after_target s ls i :
  turn_inv c s → max_count c ≤ val (mem s) →
  (increments c i s ls ≤ 1)%nat.
Proof.
  revert s. induction ls as [|l ls IH]; intros s Hinv Hv; simpl; [lia|].
  destruct (step c s l) as [s1|] eqn:H1; [|lia].
  pose proof (turn_inv_step c Hpos _ _ _ Hinv H1) as Hinv1.
  pose proof (step_val _ _ _ _ Hinv H1) as Hval.
  destruct (increments_at s l i) eqn:Hat.
  - unfold increments_at in Hat. apply andb_prop in Hat as [Hl Hw].
    apply bool_decide_eq_true in Hl.
    destruct l as [k b]; simpl in Hl; subst k.
    destruct (threads s !! i) as [p|] eqn:Hp; [|done].
    destruct p; try done.
    apply step_inv in H1 as (p & sh & p' & Hp' & Hwk & ->).
    simpl in *. simplify_eq.
    assert (Hlt : (i < length (threads s))%nat) by eauto using lookup_lt_Some.
    destruct Hinv as (_ & _ & Hloc). specialize (Hloc _ _ Hp'). simpl in Hloc.
    worker_cases Hwk.
    rewrite (increments_leaving _ _ _ Copy); simpl; [lia|done| |].
    + by rewrite list_lookup_insert_eq.
    + lia.
  - specialize (IH s1 Hinv1). lia.
Qed.

End Runs.

(** C10.  For [max_threads > 0] and [max_count >= 0] the counter never
    passes [max_count + max_threads], in any state of a run of any of
    the three classes; and from a state in which the counter has
    reached [max_count], no worker increments more than once. *)
Theorem counter_is_bounded (c : config) (s : state) :
  0 < max_threads c → 0 ≤ max_count c → reachable c s →
  val (mem s) ≤ max_count c + max_threads c ∧
  (max_count c ≤ val (mem s) →
   ∀ i ls, (increments c i s ls ≤ 1)%nat).
Proof.
  intros Hn Ht Hre. split.
  - destruct (bound_inv_reachable c Hn s Hre) as [Hb _].
    unfold last_round in Hb. lia.
  - intros Hv i ls. apply increments_after_target; [done| |done].
    by apply turn_inv_reachable.
Qed.

Lemma counter_is_bounded_witness :
  let c := Config ResourceMutex 3 0 in
  let s := execSync c in
  val (mem s) ≤ max_count c + max_threads c ∧
  (max_count c ≤ val (mem s) →
   ∀ i ls, (increments c i s ls ≤ 1)%nat).
Proof.
  intros c s. apply (counter_is_bounded c s).
  - reflexivity.
  - discriminate.
  - apply reachable_initial. by split_and!.
Defined.

(** ** Termination: possible from everywhere, forced nowhere *)

Lemma sum_list_insert_lt {A} (f : A → nat) (l : list A) i p p' :
  l !! i = Some p → (f p' < f p)%nat →
  (sum_list (f <$> <[i := p']> l) < sum_list (f <$> l))%nat.
Proof.
  revert i. induction l as [|a l IH]; intros i Hi Hlt; [done|].
  destruct i as [|i]; csimpl in *.
  - simplify_eq. lia.
  - specialize (IH i Hi Hlt). lia.
Qed.

Lemma sum_list_zero {A} (f : A → nat) (l : list A) :
  sum_list (f <$> l) = 0%nat → ∀ i p, l !! i = Some p → f p = 0%nat.
Proof.
  induction l as [|a l IH]; intros Hs i p Hi; [done|].
  csimpl in Hs. destruct i as [|i]; simpl in Hi.
  - simplify_eq. lia.
  - eapply IH; [lia|done].
Qed.

Lemma sum_list_pos {A} (f : A → nat) (l : list A) :
  (0 < sum_list (f <$> l))%nat → ∃ i p, l !! i = Some p ∧ (0 < f p)%nat.
Proof.
  induction l as [|a l IH]; csimpl; intros Hs; [lia|].
  destruct (decide (0 < f a)%nat).
  - by exists 0%nat, a.
  - destruct IH as (i & p & Hi & Hp); [lia|]. by exists (S i), p.
Qed.

(** A run that comes back to where it started never ends. *)
Lemma cycle_not_terminates c s l ls :
  run c s (l :: ls) = Some s → ¬ terminates c s.
Proof.
  intros Hr Hacc. revert l ls Hr.
  induction Hacc as [s _ IH]. intros l ls Hr.
  simpl in Hr. destruct (step c s l) as [s1|] eqn:H1; simpl in Hr; [|done].
  destruct ls as [|l' ls'].
  - simpl in Hr. injection Hr as <-.
    apply (IH s1 (ex_intro _ l H1) l []). simpl. by rewrite H1.
  - eapply (IH s1 (ex_intro _ l H1) l' (ls' ++ [l])).
    change (l' :: ls' ++ [l]) with ((l' :: ls') ++ [l]).
    rewrite run_app, Hr. simpl. by rewrite H1.
Qed.

Section Progress.
Context (c : config).
Hypothesis Hpos : 0 < max_threads c.
Hypothesis Hfit : last_round c + max_threads c ≤ INT_MAX.

(** A worker in the middle of a call can take its next step: nothing
    there waits, and [val++] finds the counter below [INT_MAX]. *)
Lemma progress_in_call s i p :
  reachable c s → threads s !! i = Some p → (0 < pending p)%nat →
  ∃ sh p', step c s (i, false) = Some (State sh (<[i := p']> (threads s))) ∧
           (pending p' < pending p)%nat.
Proof.
  intros Hre Hp Hpend.
  pose proof (turn_inv_reachable c Hpos s Hre) as Hinv.
  pose proof (bound_inv_reachable c Hpos s Hre) as Hb.
  pose proof Hinv as (_ & _ & Hloc). specialize (Hloc _ _ Hp).
  assert (Hw : ∃ sh p', worker c i false (mem s) p = Some (sh, p') ∧
                        (pending p' < pending p)%nat).
  { destruct p; simpl in *; try lia.
    - case_bool_decide; eexists _, _; (split; [done|simpl; lia]).
    - eexists _, _; (split; [done|simpl; lia]).
    - destruct Hloc as [Hturn ->].
      rewrite incr_Some.
      + eexists _, _; (split; [done|simpl; lia]).
      + pose proof (turn_below_bound c Hpos s i _ Hinv Hb Hp) as Hlt.
        simpl in Hlt. specialize (Hlt (λ x, x) Hturn). lia.
    - eexists _, _; (split; [done|simpl; lia]).
    - eexists _, _; (split; [done|simpl; lia]).
    - case_bool_decide; eexists _, _; (split; [done|simpl; lia]). }
  destruct Hw as (sh & p' & Hw & Hlt). exists sh, p'. split; [|done].
  by eapply step_intro.
Qed.

(** In particular no [val++] of a run overflows. *)
Lemma increment_defined s i tmp :
  reachable c s → threads s !! i = Some (IncWrite tmp) →
  incr tmp = Some (tmp + 1).
Proof.
  intros Hre Hp.
  pose proof (turn_inv_reachable c Hpos s Hre) as Hinv.
  pose proof (bound_inv_reachable c Hpos s Hre) as Hb.
  pose proof Hinv as (_ & _ & Hloc). destruct (Hloc _ _ Hp) as [Hturn ->].
  pose proof (turn_below_bound c Hpos s i _ Hinv Hb Hp (λ x, x) Hturn).
  apply incr_Some. lia.
Qed.

(** So the calls in progress can all be brought to their end. *)
Lemma flush s :
  reachable c s → ∃ ls s', run c s ls = Some s' ∧ calm s'.
Proof.
  remember (sum_list (pending <$> threads s)) as m eqn:Hm.
  revert s Hm. induction (lt_wf m) as [m _ IH]. intros s -> Hre.
  destruct (decide (sum_list (pending <$> threads s) = 0)%nat) as [Hz|Hnz].
  - exists [], s. split; [done|]. intros i p Hi.
    pose proof (sum_list_zero _ _ Hz i p Hi). destruct p; simpl in *; auto; lia.
  - destruct (sum_list_pos pending (threads s)) as (i & p & Hi & Hp); [lia|].
    destruct (progress_in_call s i p Hre Hi Hp) as (sh & p' & Hs & Hlt).
    destruct (IH (sum_list (pending <$> <[i := p']> (threads s))))
      with (s := State sh (<[i := p']> (threads s))) as (ls & s' & Hr & Hc).
    + by eapply sum_list_insert_lt.
    + done.
    + by eapply reachable_step.
    + exists ((i, false) :: ls), s'. split; [|done]. simpl. by rewrite Hs.
Qed.

Lemma calm_insert s sh i q :
  calm s → q = Acquire ∨ q = Done → calm (State sh (<[i := q]> (threads s))).
Proof.
  intros Hc Hq j p. simpl. intros Hj.
  destruct (decide (j = i)) as [->|Hne].
  - apply list_lookup_insert_Some in Hj as [(_ & <- & _)|[? _]]; done.
  - rewrite list_lookup_insert_ne in Hj by done. eauto.
Qed.

(** From a calm state a worker can make one whole call, alone. *)
Lemma call_from_calm s i :
  reachable c s → calm s → threads s !! i = Some Acquire →
  ∃ ls sh q,
    run c s ls = Some (State sh (<[i := q]> (threads s))) ∧
    val sh = turn_value (max_threads c) i (val (mem s)) ∧
    q = (if bool_decide (val sh < max_count c) then Acquire else Done).
Proof.
  intros Hre Hcalm Hi.
  pose proof (turn_inv_reachable c Hpos s Hre) as Hinv.
  pose proof (bound_inv_reachable c Hpos s Hre) as Hb.
  pose proof Hinv as (_ & Hv & _).
  assert (Hlt : (i < length (threads s))%nat) by eauto using lookup_lt_Some.
  assert (Hfree : resource c ≠ ResourceAtomicSpin → lock (mem s) = 0).
  { intros Hr. destruct (lock_inv_reachable c s Hr Hre)
      as [[H0 _]|(_ & k & p & Hk & Hp & _)]; [done|].
    destruct (Hcalm _ _ Hk); by subst. }
  assert (Hroom : Z.rem (val (mem s)) (max_threads c) = Z.of_nat i →
                  val (mem s) < INT_MAX).
  { intros Hturn.
    pose proof (turn_below_bound c Hpos s i _ Hinv Hb Hi (λ x, x) Hturn). lia. }
  set (ret := turn_value (max_threads c) i (val (mem s))).
  assert (Hcall : inc_alone 7 (resource c) (max_threads c) i (λ _, false) (mem s) Acquire
                  = Some (ret, Shared ret 0)).
  { destruct (mem s) as [v l] eqn:Hm. cbn [val lock] in *. by apply inc_alone_spec. }
  destruct (inc_alone_run c s i _ _ _ _ _ Hi ltac:(done) Hcall) as (ls & _ & Hrun).
  exists (ls ++ [(i, false)]), (Shared ret 0),
    (if bool_decide (ret < max_count c) then Acquire else Done).
  split_and!; [|done|done].
  eapply run_snoc; [done|]. unfold step. simpl.
  rewrite list_lookup_insert_eq by done. simpl.
  case_bool_decide; simpl; by rewrite list_insert_insert_eq.
Qed.

(** From a calm state the workers can take their turns until the
    counter reaches [max_count]. *)
Lemma reach_target s :
  reachable c s → calm s →
  ∃ ls s', run c s ls = Some s' ∧ calm s' ∧ max_count c ≤ val (mem s').
Proof.
  remember (Z.to_nat (max_count c - val (mem s))) as m eqn:Hm.
  revert s Hm. induction (lt_wf m) as [m _ IH]. intros s -> Hre Hcalm.
  destruct (decide (max_count c ≤ val (mem s))) as [Hge|Hlt].
  { exists [], s. by split_and!. }
  pose proof (turn_inv_reachable c Hpos s Hre) as (Hlen & Hv & Hloc).
  set (k := Z.to_nat (val (mem s) mod max_threads c)).
  pose proof (Z.mod_pos_bound (val (mem s)) (max_threads c) Hpos) as Hk.
  destruct (lookup_lt_is_Some_2 (threads s) k) as [p Hp]; [lia|].
  assert (p = Acquire) as ->.
  { destruct (Hcalm _ _ Hp) as [->| ->]; [done|].
    specialize (Hloc _ _ Hp). simpl in Hloc. lia. }
  destruct (call_from_calm s k Hre Hcalm Hp) as (ls & sh & q & Hrun & Hval & Hq).
  unfold turn_value in Hval. rewrite bool_decide_true in Hval by lia.
  edestruct (IH (Z.to_nat (max_count c - val sh)))
    with (s := State sh (<[k := q]> (threads s))) as (ls' & s' & Hrun' & Hcalm' & Hge').
  - lia.
  - done.
  - by eapply reachable_run.
  - apply calm_insert; [done|]. subst q. case_bool_decide; auto.
  - exists (ls ++ ls'), s'. split_and!; [|done|done].
    rewrite run_app, Hrun. done.
Qed.

(** Once it has, every worker's next call is its last. *)
Lemma finish s :
  reachable c s → calm s → max_count c ≤ val (mem s) →
  ∃ ls s', run c s ls = Some s' ∧ joined s'.
Proof.
  remember (sum_list (alive <$> threads s)) as m eqn:Hm.
  revert s Hm. induction (lt_wf m) as [m _ IH]. intros s -> Hre Hcalm Hge.
  destruct (decide (sum_list (alive <$> threads s) = 0)%nat) as [Hz|Hnz].
  { exists [], s. split; [done|]. apply Forall_lookup. intros i p Hi.
    pose proof (sum_list_zero _ _ Hz i p Hi). by destruct p. }
  destruct (sum_list_pos alive (threads s)) as (i & p & Hi & Hp); [lia|].
  assert (p = Acquire) as ->.
  { destruct (Hcalm _ _ Hi) as [->| ->]; [done|]. simpl in Hp. lia. }
  destruct (call_from_calm s i Hre Hcalm Hi) as (ls & sh & q & Hrun & Hval & Hq).
  assert (Hge' : max_count c ≤ val sh).
  { rewrite Hval. unfold turn_value. destruct (bool_decide (_ = _)); lia. }
  rewrite bool_decide_false in Hq by lia. subst q.
  edestruct (IH (sum_list (alive <$> <[i := Done]> (threads s))))
    with (s := State sh (<[i := Done]> (threads s))) as (ls' & s' & Hrun' & Hj).
  - by eapply sum_list_insert_lt.
  - done.
  - by eapply reachable_run.
  - apply calm_insert; auto.
  - done.
  - exists (ls ++ ls'), s'. split; [|done]. rewrite run_app, Hrun. done.
Qed.

(** From every state of a run there is a way to the end. *)
Lemma can_finish s :
  reachable c s → ∃ ls s', run c s ls = Some s' ∧ joined s'.
Proof.
  intros Hre.
  destruct (flush s Hre) as (ls1 & s1 & Hr1 & Hc1).
  pose proof (reachable_run _ _ _ _ Hre Hr1) as Hre1.
  destruct (reach_target s1 Hre1 Hc1) as (ls2 & s2 & Hr2 & Hc2 & Hge).
  pose proof (reachable_run _ _ _ _ Hre1 Hr2) as Hre2.
  destruct (finish s2 Hre2 Hc2 Hge) as (ls3 & s3 & Hr3 & Hj).
  exists (ls1 ++ ls2 ++ ls3), s3. split; [|done].
  rewrite run_app, Hr1. simpl. rewrite run_app, Hr2. done.
Qed.

(** When all workers have returned, the counter has reached
    [max_count]. *)
Lemma joined_reached s :
  reachable c s → joined s → max_count c ≤ val (mem s).
Proof.
  intros Hre Hj.
  pose proof (turn_inv_reachable c Hpos s Hre) as (Hlen & Hv & Hloc).
  destruct (lookup_lt_is_Some_2 (threads s) 0) as [p Hp]; [lia|].
  pose proof (proj1 (Forall_lookup _ _) Hj _ _ Hp) as ->.
  apply (Hloc _ _ Hp).
Qed.

End Progress.

(** C4, as the code has it.  For [max_threads > 0] and [max_count >= 0]
    with [max_count + max_threads] in the range of [int], and for each
    of the three classes: from every state of a run some continuation
    brings all workers to their return, with the counter at
    [max_count] or more; and whenever all workers have returned the
    counter is at [max_count] or more.  That the run does end is up to
    the scheduler. *)
Theorem run_can_always_finish (c : config) (s : state) :
  0 < max_threads c → 0 ≤ max_count c →
  max_count c + max_threads c ≤ INT_MAX →
  reachable c s →
  (∃ ls s', run c s ls = Some s' ∧ joined s' ∧ max_count c ≤ val (mem s')) ∧
  (joined s → max_count c ≤ val (mem s)).
Proof.
  intros Hn Ht Hfit Hre.
  assert (Hfit' : last_round c + max_threads c ≤ INT_MAX).
  { unfold last_round. lia. }
  split.
  - destruct (can_finish c Hn Hfit' s Hre) as (ls & s' & Hr & Hj).
    exists ls, s'. split_and!; [done|done|].
    apply joined_reached; [done| |done]. by eapply reachable_run.
  - by apply joined_reached.
Qed.

Lemma run_can_always_finish_witness :
  let c := Config ResourceAtomicFlag 4 100 in
  let s := execSync c in
  (∃ ls s', run c s ls = Some s' ∧ joined s' ∧ max_count c ≤ val (mem s')) ∧
  (joined s → max_count c ≤ val (mem s)).
Proof.
  intros c s. apply (run_can_always_finish c s).
  - reflexivity.
  - discriminate.
  - discriminate.
  - apply reachable_initial. by split_and!.
Defined.

(** C4, as stated, fails: with two workers and [max_count = 1], worker
    1 can make call after call while worker 0, whose turn it is, is not
    scheduled; each call brings the run back to its first state.  This
    holds for the three classes. *)
Lemma some_runs_never_end :
  ¬ terminates (Config ResourceAtomicSpin 2 1) (execSync (Config ResourceAtomicSpin 2 1)) ∧
  ¬ terminates (Config ResourceAtomicFlag 2 1) (execSync (Config ResourceAtomicFlag 2 1)) ∧
  ¬ terminates (Config ResourceMutex 2 1) (execSync (Config ResourceMutex 2 1)).
Proof.
  split_and!.
  - by apply (cycle_not_terminates _ _ (1%nat, false) (replicate 5 (1%nat, false))).
  - by apply (cycle_not_terminates _ _ (1%nat, false) (replicate 4 (1%nat, false))).
  - by apply (cycle_not_terminates _ _ (1%nat, false) (replicate 4 (1%nat, false))).
Qed.

(** ** What the final value can be *)

Lemma initial_execSync c : initial c (execSync c).
Proof. by split_and!. Qed.

Lemma succ_changes_residue v n :
  2 ≤ n → 0 ≤ v → Z.rem (v + 1) n ≠ Z.rem v n.
Proof.
  intros Hn Hv. rewrite !Z.rem_mod_nonneg by lia. intros Heq.
  assert (H1 : (v + 1 - v) mod n = 0).
  { rewrite Zminus_mod, Heq, Z.sub_diag. by apply Z.mod_0_l; lia. }
  replace (v + 1 - v) with 1 in H1 by lia.
  rewrite Z.mod_1_l in H1 by lia. done.
Qed.

Lemma turns_succ n i v :
  0 < n → Z.of_nat i < n → 0 ≤ v →
  turns n i (v + 1) = turns n i v + (if bool_decide (Z.rem v n = Z.of_nat i) then 1 else 0).
Proof.
  intros Hn Hi Hv. unfold turns. rewrite Z.rem_mod_nonneg by lia.
  pose proof (Z.div_mod v n ltac:(lia)) as Hdm.
  pose proof (Z.mod_pos_bound v n Hn) as Hb.
  set (q := v / n) in *. set (r := v mod n) in *.
  case_bool_decide as Hr.
  - rewrite <- (Z.div_unique (v + 1 + n - 1 - Z.of_nat i) n (q + 1) 0) by lia.
    rewrite <- (Z.div_unique (v + n - 1 - Z.of_nat i) n q (n - 1)) by lia. lia.
  - destruct (decide (r < Z.of_nat i)).
    + rewrite <- (Z.div_unique (v + 1 + n - 1 - Z.of_nat i) n q (r + n - Z.of_nat i)) by lia.
      rewrite <- (Z.div_unique (v + n - 1 - Z.of_nat i) n q (r + n - 1 - Z.of_nat i)) by lia.
      lia.
    + rewrite <- (Z.div_unique (v + 1 + n - 1 - Z.of_nat i) n (q + 1) (r - Z.of_nat i)) by lia.
      rewrite <- (Z.div_unique (v + n - 1 - Z.of_nat i) n (q + 1) (r - 1 - Z.of_nat i)) by lia.
      lia.
Qed.

Section Finals.
Context (c : config).
Hypothesis Hpos : 0 < max_threads c.

(** A worker increments once for each value on which it has the turn. *)
Lemma increments_turns s ls s' i :
  turn_inv c s → run c s ls = Some s' → Z.of_nat i < max_threads c →
  Z.of_nat (increments c i s ls)
  = turns (max_threads c) i (val (mem s')) - turns (max_threads c) i (val (mem s)).
Proof.
  intros Hinv Hr Hi. revert s Hinv Hr.
  induction ls as [|l ls IH]; intros s Hinv Hr; simpl in *.
  - simplify_eq. lia.
  - destruct (step c s l) as [s1|] eqn:H1; simpl in Hr; [|done].
    pose proof (turn_inv_step c Hpos _ _ _ Hinv H1) as Hinv1.
    specialize (IH s1 Hinv1 Hr).
    pose proof Hinv as (_ & Hv & Hloc).
    destruct (step_val _ _ _ _ Hinv H1) as [Heq|(Hinc & Hw & Hturn)].
    + assert (increments_at s l i = false) as ->.
      { unfold increments_at. destruct (bool_decide (l.1 = i)) eqn:Hl; [|done].
        apply bool_decide_eq_true in Hl. subst i. simpl.
        destruct (threads s !! l.1) as [p|] eqn:Hp; [|done].
        destruct p; try done. exfalso.
        apply step_inv in H1 as (p & sh & p' & Hp' & Hwk & ->).
        simplify_eq. simpl in *. worker_cases Hwk.
        specialize (Hloc _ _ Hp'). simpl in Hloc. lia. }
      rewrite <- Heq. lia.
    + rewrite Hinc in IH. rewrite turns_succ in IH by lia.
      unfold increments_at. rewrite Nat2Z.inj_add, IH.
      destruct (decide (l.1 = i)) as [<-|Hne].
      * rewrite bool_decide_true by done. rewrite bool_decide_true in IH by done.
        simpl. rewrite Hw. simpl. rewrite bool_decide_true by done. lia.
      * rewrite (bool_decide_false (l.1 = i)) by done. simpl.
        rewrite bool_decide_false by lia. lia.
Qed.

Hypothesis Hlock : resource c ≠ ResourceAtomicSpin.
Hypothesis Htwo : 2 ≤ max_threads c.

Lemma off_turn_inv_initial s : initial c s → off_turn_inv c s.
Proof.
  intros (_ & Ht & _) i p. rewrite Ht. by intros [-> _]%lookup_replicate.
Qed.

Lemma off_turn_inv_step s l s' :
  turn_inv c s → lock_inv s → off_turn_inv c s →
  step c s l = Some s' → off_turn_inv c s'.
Proof.
  intros Hinv Hlk Hoff Hs.
  pose proof Hinv as (Hlen & Hv & Hloc).
  apply step_inv in Hs as (p & sh & p' & Hp & Hw & ->).
  destruct l as [i b]; simpl in *.
  assert (Hlt : (i < length (threads s))%nat) by eauto using lookup_lt_Some.
  pose proof (Hloc _ _ Hp) as Hi. pose proof (Hoff _ _ Hp) as Hoi.
  pose proof (succ_changes_residue (val (mem s)) (max_threads c) Htwo Hv) as Hsucc.
  intros j q Hq. simpl in *. destruct (decide (j = i)) as [->|Hne].
  - rewrite list_lookup_insert_eq in Hq by done. simplify_eq.
    worker_cases Hw; try done; try lia.
    + destruct Hi as [Hi Htmp]. subst tmp. congruence.
    + intros Heq. assert (ret = max_count c) as Hret by lia. by subst ret.
  - rewrite list_lookup_insert_ne in Hq by done.
    pose proof (Hoff _ _ Hq) as Hoj. pose proof (Hloc _ _ Hq) as Hj.
    assert (Hexcl : protected p = true → protected q = true → False).
    { intros Hpp Hpq.
      destruct Hlk as [[_ Hno]|(_ & k & r & _ & _ & Huniq)].
      - apply Hno in Hp. congruence.
      - apply Hne. rewrite (Huniq _ _ Hq Hpq). symmetry. by eapply Huniq. }
    worker_cases Hw; try done;
      destruct q; simpl in *; try done; try (by exfalso; apply Hexcl); lia.
Qed.

Lemma off_turn_inv_reachable s : reachable c s → off_turn_inv c s.
Proof.
  induction 1 using reachable_ind';
    eauto using off_turn_inv_initial, off_turn_inv_step,
                turn_inv_reachable, lock_inv_reachable.
Qed.

(** With a working lock and two workers or more, the run ends past
    [max_count]: the worker on turn at [max_count] increments once
    more. *)
Lemma joined_past_target s :
  0 ≤ max_count c → reachable c s → joined s → max_count c + 1 ≤ val (mem s).
Proof.
  intros Ht Hre Hj.
  pose proof (turn_inv_reachable c Hpos s Hre) as (Hlen & Hv & Hloc).
  pose proof (off_turn_inv_reachable s Hre) as Hoff.
  pose proof (Z.mod_pos_bound (max_count c) (max_threads c) Hpos) as Hk.
  destruct (lookup_lt_is_Some_2 (threads s) (Z.to_nat (max_count c mod max_threads c)))
    as [p Hp]; [lia|].
  pose proof (proj1 (Forall_lookup _ _) Hj _ _ Hp) as ->.
  specialize (Hloc _ _ Hp). specialize (Hoff _ _ Hp). simpl in *.
  destruct (decide (val (mem s) = max_count c)) as [Heq|Hne]; [|lia].
  exfalso. apply (Hoff Heq). rewrite Z.rem_mod_nonneg by lia. lia.
Qed.

End Finals.

(** ** The flag and the mutex reach the same states *)

Lemma worker_mutex_flag n T i b sh p x :
  worker (Config ResourceMutex n T) i b sh p = Some x →
  worker (Config ResourceAtomicFlag n T) i b sh p = Some x.
Proof.
  destruct p; simpl; try done. by case_bool_decide.
Qed.

Lemma worker_flag_mutex n T i b sh p x :
  worker (Config ResourceAtomicFlag n T) i b sh p = Some x →
  (p = Acquire ∧ lock sh ≠ 0 ∧ x = (Shared (val sh) 1, Acquire)) ∨
  worker (Config ResourceMutex n T) i b sh p = Some x.
Proof.
  destruct p; simpl; auto. case_bool_decide; auto.
  intros [= <-]. by left.
Qed.

Lemma flag_step_mutex n T s l s' :
  lock_inv s →
  step (Config ResourceAtomicFlag n T) s l = Some s' →
  s' = s ∨ step (Config ResourceMutex n T) s l = Some s'.
Proof.
  intros Hlk (p & sh & p' & Hp & Hw & ->)%step_inv.
  destruct (worker_flag_mutex _ _ _ _ _ _ _ Hw) as [(-> & Hl & [= -> ->])|Hw'].
  - left. rewrite list_insert_id by done.
    destruct Hlk as [[H0 _]|[H1 _]]; [done|].
    destruct s as [[v k] ts]. simpl in *. by subst.
  - right. unfold step. rewrite Hp. simpl. by rewrite Hw'.
Qed.

Lemma mutex_step_flag n T s l s' :
  step (Config ResourceMutex n T) s l = Some s' →
  step (Config ResourceAtomicFlag n T) s l = Some s'.
Proof.
  intros (p & sh & p' & Hp & Hw & ->)%step_inv.
  unfold step. rewrite Hp. simpl.
  by rewrite (worker_mutex_flag _ _ _ _ _ _ _ Hw).
Qed.

Lemma flag_mutex_same_states n T s :
  reachable (Config ResourceAtomicFlag n T) s ↔
  reachable (Config ResourceMutex n T) s.
Proof.
  split.
  - induction 1 as [s (Hv & Ht & Hl)|s l s' Hre IH Hs] using reachable_ind'.
    + apply reachable_initial. split_and!; [done|done|]. intros _. by apply Hl.
    + destruct (flag_step_mutex n T s l s') as [->|Hs']; [|done|done|].
      * by apply (lock_inv_reachable (Config ResourceAtomicFlag n T)).
      * by eapply reachable_step.
  - induction 1 as [s (Hv & Ht & Hl)|s l s' Hre IH Hs] using reachable_ind'.
    + apply reachable_initial. split_and!; [done|done|]. intros _. by apply Hl.
    + eapply reachable_step; [done|]. by apply mutex_step_flag.
Qed.

(** C5, as the code has it.  For the same [max_threads > 0] and
    [max_count >= 0]: a call run on its own has the same result in the
    three classes; [ResourceAtomicFlag] and [ResourceMutex] reach the
    same states, so the same final values; and the final value of any
    complete run of these two lies between [max_count] and
    [max_count + max_threads].  Which value it is depends on the
    schedule. *)
Theorem variants_agree_up_to_schedule (n T : Z) :
  0 < n → 0 ≤ T →
  (∀ r1 r2 i sp1 sp2 v,
     0 ≤ v < INT_MAX →
     inc_alone 7 r1 n i sp1 (Shared v 0) Acquire
     = inc_alone 7 r2 n i sp2 (Shared v 0) Acquire) ∧
  (∀ s, reachable (Config ResourceAtomicFlag n T) s ↔
        reachable (Config ResourceMutex n T) s) ∧
  (∀ r s, r ≠ ResourceAtomicSpin →
          reachable (Config r n T) s → joined s →
          T ≤ val (mem s) ≤ T + n).
Proof.
  intros Hn HT. split_and!.
  - intros r1 r2 i sp1 sp2 v Hv. rewrite !inc_alone_spec; (done || lia).
  - intros s. apply flag_mutex_same_states.
  - intros r s _ Hre Hj.
    pose proof (turn_inv_reachable (Config r n T) Hn s Hre) as (Hlen & Hv & Hloc).
    destruct (bound_inv_reachable (Config r n T) Hn s Hre) as [Hb _].
    unfold last_round in Hb. simpl in *.
    destruct (lookup_lt_is_Some_2 (threads s) 0) as [p Hp]; [lia|].
    pose proof (proj1 (Forall_lookup _ _) Hj _ _ Hp) as ->.
    specialize (Hloc _ _ Hp). simpl in Hloc. lia.
Qed.

Lemma variants_agree_up_to_schedule_witness :
  (∀ r1 r2 i sp1 sp2 v,
     0 ≤ v < INT_MAX →
     inc_alone 7 r1 3 i sp1 (Shared v 0) Acquire
     = inc_alone 7 r2 3 i sp2 (Shared v 0) Acquire) ∧
  (∀ s, reachable (Config ResourceAtomicFlag 3 1) s ↔
        reachable (Config ResourceMutex 3 1) s) ∧
  (∀ r s, r ≠ ResourceAtomicSpin →
          reachable (Config r 3 1) s → joined s →
          1 ≤ val (mem s) ≤ 1 + 3).
Proof.
  apply (variants_agree_up_to_schedule 3 1).
  - reflexivity.
  - discriminate.
Defined.

(** C5, as stated, fails: with three workers and [max_count = 1], a run
    of [ResourceAtomicFlag] ends at 3 and a run of [ResourceMutex] ends
    at 2.  In the first the workers call in the order 0, 1, 2; in the
    second worker 2 calls before worker 1, finds the counter at 1
    without having the turn, and leaves. *)
Lemma final_value_depends_on_schedule :
  ¬ (∀ r1 r2 ls1 ls2 s1 s2,
       run (Config r1 3 1) (execSync (Config r1 3 1)) ls1 = Some s1 → joined s1 →
       run (Config r2 3 1) (execSync (Config r2 3 1)) ls2 = Some s2 → joined s2 →
       val (mem s1) = val (mem s2)).
Proof.
  intros H.
  specialize (H ResourceAtomicFlag ResourceMutex
                (round_robin 3 3)
                (replicate 7 (0%nat, false) ++ replicate 5 (2%nat, false)
                   ++ replicate 7 (1%nat, false))
                (State (Shared 3 0) [Done; Done; Done])
                (State (Shared 2 0) [Done; Done; Done])).
  discriminate H; (reflexivity || by repeat constructor).
Qed.

(** C6, as the code has it.  With four workers, [max_count = 100] and
    a lock that excludes ([ResourceAtomicFlag] or [ResourceMutex]),
    every complete run ends with the counter at 101, 102 or 103;
    worker 0 increments 26 times, worker 3 increments 25 times, workers
    1 and 2 increment 25 or 26 times each, and the increments add up to
    the final value. *)
Theorem scenario_4_100 (r : Resource) (ls : list label) (s : state) :
  r ≠ ResourceAtomicSpin →
  run (Config r 4 100) (execSync (Config r 4 100)) ls = Some s →
  joined s →
  101 ≤ val (mem s) ≤ 103 ∧
  increments (Config r 4 100) 0 (execSync (Config r 4 100)) ls = 26%nat ∧
  (25 ≤ increments (Config r 4 100) 1 (execSync (Config r 4 100)) ls ≤ 26)%nat ∧
  (25 ≤ increments (Config r 4 100) 2 (execSync (Config r 4 100)) ls ≤ 26)%nat ∧
  increments (Config r 4 100) 3 (execSync (Config r 4 100)) ls = 25%nat ∧
  Z.of_nat (increments (Config r 4 100) 0 (execSync (Config r 4 100)) ls
            + increments (Config r 4 100) 1 (execSync (Config r 4 100)) ls
            + increments (Config r 4 100) 2 (execSync (Config r 4 100)) ls
            + increments (Config r 4 100) 3 (execSync (Config r 4 100)) ls)
  = val (mem s).
Proof.
  intros Hr Hrun Hj.
  set (c := Config r 4 100) in *.
  assert (Hn : 0 < max_threads c) by done.
  pose proof (reachable_initial c _ (initial_execSync c)) as Hre0.
  pose proof (reachable_run c _ _ _ Hre0 Hrun) as Hre.
  pose proof (joined_past_target c Hn Hr ltac:(done) s ltac:(done) Hre Hj) as Hlow.
  destruct (bound_inv_reachable c Hn s Hre) as [Hup _].
  pose proof (turn_inv_reachable c Hn _ Hre0) as Hinv0.
  assert (Hinc : ∀ i, (i < 4)%nat →
            Z.of_nat (increments c i (execSync c) ls)
            = (val (mem s) + 3 - Z.of_nat i) / 4).
  { intros i Hi. rewrite (increments_turns c Hn _ _ _ i Hinv0 Hrun) by (simpl; lia).
    unfold turns. simpl.
    rewrite (Z.div_small (0 + 4 - 1 - Z.of_nat i) 4) by lia.
    rewrite Z.sub_0_r. f_equal. lia. }
  pose proof (Hinc 0%nat ltac:(lia)) as H0. pose proof (Hinc 1%nat ltac:(lia)) as H1.
  pose proof (Hinc 2%nat ltac:(lia)) as H2. pose proof (Hinc 3%nat ltac:(lia)) as H3.
  assert (Hcases : val (mem s) = 101 ∨ val (mem s) = 102 ∨ val (mem s) = 103).
  { change (last_round c) with 99 in Hup. simpl in *. lia. }
  destruct Hcases as [Hv|[Hv|Hv]]; rewrite Hv in *;
    change ((101 + 3 - Z.of_nat 0) / 4) with 26 in *;
    change ((101 + 3 - Z.of_nat 1) / 4) with 25 in *;
    change ((101 + 3 - Z.of_nat 2) / 4) with 25 in *;
    change ((101 + 3 - Z.of_nat 3) / 4) with 25 in *;
    change ((102 + 3 - Z.of_nat 0) / 4) with 26 in *;
    change ((102 + 3 - Z.of_nat 1) / 4) with 26 in *;
    change ((102 + 3 - Z.of_nat 2) / 4) with 25 in *;
    change ((102 + 3 - Z.of_nat 3) / 4) with 25 in *;
    change ((103 + 3 - Z.of_nat 0) / 4) with 26 in *;
    change ((103 + 3 - Z.of_nat 1) / 4) with 26 in *;
    change ((103 + 3 - Z.of_nat 2) / 4) with 26 in *;
    change ((103 + 3 - Z.of_nat 3) / 4) with 25 in *;
    lia.
Qed.

Lemma scenario_4_100_witness :
  let c := Config ResourceAtomicFlag 4 100 in
  let ls := round_robin 4 103 in
  let s := State (Shared 103 0) [Done; Done; Done; Done] in
  101 ≤ val (mem s) ≤ 103 ∧
  increments c 0 (execSync c) ls = 26%nat ∧
  (25 ≤ increments c 1 (execSync c) ls ≤ 26)%nat ∧
  (25 ≤ increments c 2 (execSync c) ls ≤ 26)%nat ∧
  increments c 3 (execSync c) ls = 25%nat ∧
  Z.of_nat (increments c 0 (execSync c) ls + increments c 1 (execSync c) ls
            + increments c 2 (execSync c) ls + increments c 3 (execSync c) ls)
  = val (mem s).
Proof.
  intros c ls s.
  apply (scenario_4_100 ResourceAtomicFlag ls s).
  - discriminate.
  - vm_compute. reflexivity.
  - repeat constructor.
Defined.

(** C6, as stated, fails: in the round-robin run of
    [ResourceAtomicFlag] with four workers and [max_count = 100] the
    counter ends at 103, not at 100. *)
Lemma final_value_is_not_100 :
  ¬ (∀ ls s,
       run (Config ResourceAtomicFlag 4 100)
           (execSync (Config ResourceAtomicFlag 4 100)) ls = Some s →
       joined s →
       val (mem s) = 100 ∧
       ∀ i, (i < 4)%nat →
            increments (Config ResourceAtomicFlag 4 100) i
              (execSync (Config ResourceAtomicFlag 4 100)) ls = 25%nat).
Proof.
  intros H.
  destruct (H (round_robin 4 103) (State (Shared 103 0) [Done; Done; Done; Done]))
    as [Hv _].
  - vm_compute. reflexivity.
  - repeat constructor.
  - discriminate Hv.
Qed.

(** ** The target count on the command line *)

Example std_stoi_number : std_stoi "250" = Some 250.
Proof. reflexivity. Qed.

Example std_stoi_negative : std_stoi " -5" = Some (-5).
Proof. reflexivity. Qed.

Example std_stoi_no_number : std_stoi "abc" = None.
Proof. reflexivity. Qed.

Example std_stoi_out_of_range : std_stoi "2147483648" = None.
Proof. reflexivity. Qed.

(** [std::stoi] reads a leading number and ignores the rest. *)
Example std_stoi_prefix : std_stoi "12abc" = Some 12.
Proof. reflexivity. Qed.

(** A number written in decimal digits, within [int], is read back by
    the model of [std::stoi], and [main] passes it on as it is. *)
Lemma digit_of_digit_char d : (d < 10)%nat → digit_of (digit_char d) = Some (Z.of_nat d).
Proof.
  intros Hd. do 10 (destruct d as [|d]; [reflexivity|]). lia.
Qed.

Lemma read_digits_decimal ds acc :
  Forall (λ d, d < 10)%nat ds →
  read_digits acc (decimal ds) = fold_left (λ a d, 10 * a + Z.of_nat d) ds acc.
Proof.
  intros Hds. revert acc. induction Hds as [|d ds Hd _ IH]; intros acc; [done|].
  cbn [decimal read_digits fold_left]. rewrite digit_of_digit_char by done. apply IH.
Qed.

Lemma std_stoi_decimal ds :
  ds ≠ [] → Forall (λ d, d < 10)%nat ds → decimal_value ds ≤ INT_MAX →
  0 ≤ decimal_value ds →
  std_stoi (decimal ds) = Some (decimal_value ds).
Proof.
  intros Hne Hds Hmax Hmin. destruct ds as [|d ds]; [done|].
  pose proof (read_digits_decimal (d :: ds) 0 Hds) as Hread.
  inversion Hds as [|? ? Hd Hds']; subst.
  assert (Hshape : std_stoi (decimal (d :: ds)) = read_number false (decimal (d :: ds))).
  { cbn [decimal]. do 10 (destruct d as [|d]; [reflexivity|]). lia. }
  rewrite Hshape. cbn [decimal read_number]. rewrite digit_of_digit_char by done.
  cbn [decimal] in Hread. rewrite Hread. fold (decimal_value (d :: ds)).
  rewrite !bool_decide_true; [done|lia|unfold INT_MIN; lia].
Qed.

Lemma main_uses_decimal_argument prog ds rest :
  ds ≠ [] → Forall (λ d, d < 10)%nat ds → decimal_value ds ≤ INT_MAX →
  0 ≤ decimal_value ds →
  main_max_count std_stoi (prog :: decimal ds :: rest) = decimal_value ds.
Proof.
  intros Hne Hds Hmax Hmin. unfold main_max_count.
  rewrite std_stoi_decimal by done. by rewrite bool_decide_false by lia.
Qed.

Example main_uses_decimal_argument_example :
  main_max_count std_stoi ["lstest"; decimal [5; 0; 0; 0]%nat] = 5000.
Proof. apply (main_uses_decimal_argument "lstest" [5; 0; 0; 0]%nat []); by repeat constructor. Qed.

(** ** Two runs worth seeing *)

(** The bound of C10 is reached: with [max_count = 0] every worker
    calls once, and called in the order of their numbers they all
    increment. *)
Example bound_is_reached :
  run (Config ResourceMutex 3 0) (execSync (Config ResourceMutex 3 0)) (round_robin 3 3)
  = Some (State (Shared 3 0) [Done; Done; Done]).
Proof. reflexivity. Qed.

(** With [ResourceAtomicSpin] a run can end with the counter at
    [max_count] itself, which the other two classes exclude
    ([joined_past_target]): worker 1 is let into the protected code
    while it is worker 0's turn, and copies the counter after worker 0
    has incremented it. *)
Example spin_can_end_at_target :
  run (Config ResourceAtomicSpin 2 1) (execSync (Config ResourceAtomicSpin 2 1))
    (replicate 3 (1%nat, false) ++ replicate 7 (0%nat, false)
       ++ replicate 3 (1%nat, false))
  = Some (State (Shared 1 0) [Done; Done]).
Proof. reflexivity. Qed.

(** * Further properties of the code *)

(** ** The locks of [ResourceAtomicFlag] and [ResourceMutex] *)

(** X1.  In a run of [ResourceAtomicFlag] or of [ResourceMutex], two
    workers are never in the protected code of [inc] at once. *)
Theorem flag_and_mutex_exclude (c : config) (s : state) (i j : nat) (p q : point) :
  resource c ≠ ResourceAtomicSpin → reachable c s →
  threads s !! i = Some p → threads s !! j = Some q →
  protected p = true → protected q = true → i = j.
Proof. apply mutual_exclusion. Qed.

Lemma flag_and_mutex_exclude_witness : 0%nat = 0%nat.
Proof.
  apply (flag_and_mutex_exclude (Config ResourceAtomicFlag 2 1)
           (State (Shared 0 1) [Test; Acquire]) 0 0 Test Test).
  - discriminate.
  - exists (execSync (Config ResourceAtomicFlag 2 1)), [(0%nat, false)].
    split; [apply initial_execSync|reflexivity].
  - reflexivity.
  - reflexivity.
  - reflexivity.
  - reflexivity.
Defined.

(** X2.  In a run of [ResourceAtomicFlag] or of [ResourceMutex], while
    a worker is in the protected code no step of another worker
    changes the counter. *)
Theorem protected_code_runs_undisturbed (c : config) (s s' : state) (l : label)
    (i : nat) (p : point) :
  0 < max_threads c →
  resource c ≠ ResourceAtomicSpin → reachable c s →
  threads s !! i = Some p → protected p = true → l.1 ≠ i →
  step c s l = Some s' → val (mem s') = val (mem s).
Proof. intros. by eapply protected_code_is_atomic. Qed.

Lemma protected_code_runs_undisturbed_witness :
  val (mem (State (Shared 0 1) [Test; Acquire])) = val (mem (State (Shared 0 1) [Test; Acquire])).
Proof.
  apply (protected_code_runs_undisturbed (Config ResourceAtomicFlag 2 1)
           (State (Shared 0 1) [Test; Acquire]) (State (Shared 0 1) [Test; Acquire])
           (1%nat, false) 0 Test).
  - reflexivity.
  - discriminate.
  - exists (execSync (Config ResourceAtomicFlag 2 1)), [(0%nat, false)].
    split; [apply initial_execSync|reflexivity].
  - reflexivity.
  - reflexivity.
  - discriminate.
  - reflexivity.
Defined.

(** X3.  In a run of [ResourceAtomicFlag] or of [ResourceMutex] the
    lock cell is 0 or 1, and it is 1 exactly when some worker is in the
    protected code: every call gives the lock back, and nothing else
    sets it. *)
Theorem lock_cell_tracks_protected_code (c : config) (s : state) :
  resource c ≠ ResourceAtomicSpin → reachable c s →
  (lock (mem s) = 0 ∨ lock (mem s) = 1) ∧
  (lock (mem s) = 1 ↔ ∃ i p, threads s !! i = Some p ∧ protected p = true).
Proof.
  intros Hr Hre.
  destruct (lock_inv_reachable c s Hr Hre) as [[H0 Hno]|(H1 & k & q & Hk & Hq & _)].
  - split; [by left|]. split; [lia|].
    intros (i & p & Hi & Hp). apply Hno in Hi. congruence.
  - split; [by right|]. split; [|done]. by exists k, q.
Qed.

Lemma lock_cell_tracks_protected_code_witness :
  let s := State (Shared 0 1) [Test; Acquire] in
  (lock (mem s) = 0 ∨ lock (mem s) = 1) ∧
  (lock (mem s) = 1 ↔ ∃ i p, threads s !! i = Some p ∧ protected p = true).
Proof.
  apply (lock_cell_tracks_protected_code (Config ResourceMutex 2 1)).
  - discriminate.
  - exists (execSync (Config ResourceMutex 2 1)), [(0%nat, false)].
    split; [apply initial_execSync|reflexivity].
Defined.

(** ** The turn test *)

(** X4.  In a run of any of the three classes, two workers are never
    between the turn test and the store of [val++] at once, the worker
    that is there is the one whose number is [val % max_threads], and
    the value it has loaded for the store is the counter's: the turn
    test serialises the increments whatever the lock does. *)
Theorem increments_are_serialised (c : config) (s : state) (i j : nat) (p q : point) :
  0 < max_threads c → reachable c s →
  threads s !! i = Some p → threads s !! j = Some q →
  incrementing p = true → incrementing q = true →
  i = j ∧ Z.rem (val (mem s)) (max_threads c) = Z.of_nat i ∧
  ∀ tmp, p = IncWrite tmp → tmp = val (mem s).
Proof.
  intros Hn Hre Hi Hj Hp Hq.
  destruct (turn_inv_reachable c Hn s Hre) as (_ & _ & Hloc).
  pose proof (Hloc _ _ Hi) as Hli. pose proof (Hloc _ _ Hj) as Hlj.
  assert (Hti : Z.rem (val (mem s)) (max_threads c) = Z.of_nat i).
  { destruct p; simpl in *; try done. by destruct Hli. }
  assert (Htj : Z.rem (val (mem s)) (max_threads c) = Z.of_nat j).
  { destruct q; simpl in *; try done. by destruct Hlj. }
  split_and!; [lia|done|].
  intros tmp ->. by destruct Hli.
Qed.

Lemma increments_are_serialised_witness :
  let s := State (Shared 0 1) [IncWrite 0; Test] in
  0%nat = 0%nat ∧ Z.rem (val (mem s)) 2 = Z.of_nat 0 ∧
  ∀ tmp, IncWrite 0 = IncWrite tmp → tmp = val (mem s).
Proof.
  apply (increments_are_serialised (Config ResourceAtomicSpin 2 1)
           (State (Shared 0 1) [IncWrite 0; Test]) 0 0 (IncWrite 0) (IncWrite 0)).
  - reflexivity.
  - exists (execSync (Config ResourceAtomicSpin 2 1)),
      [(0%nat, false); (0%nat, false); (1%nat, false); (0%nat, false); (0%nat, false)].
    split; [apply initial_execSync|reflexivity].
  - reflexivity.
  - reflexivity.
  - reflexivity.
  - reflexivity.
Defined.

(** ** No increment is lost *)

Lemma stores_val c s ls s' :
  0 < max_threads c → turn_inv c s → run c s ls = Some s' →
  val (mem s') = val (mem s) + Z.of_nat (stores c s ls).
Proof.
  intros Hn. revert s. induction ls as [|l ls IH]; intros s Hinv Hr; simpl in *.
  - simplify_eq. lia.
  - destruct (step c s l) as [s1|] eqn:H1; simpl in Hr; [|done].
    rewrite (IH s1 (turn_inv_step c Hn _ _ _ Hinv H1) Hr).
    destruct (step_val _ _ _ _ Hinv H1) as [Heq|(Hinc & Hw & _)].
    + assert (is_store s l = false) as ->; [|lia].
      unfold is_store. destruct (threads s !! l.1) as [p|] eqn:Hp; [|done].
      destruct p; try done. exfalso.
      destruct Hinv as (_ & _ & Hloc). specialize (Hloc _ _ Hp). simpl in Hloc.
      apply step_inv in H1 as (p & sh & p' & Hp' & Hwk & ->).
      simplify_eq. simpl in *. worker_cases Hwk. lia.
    + unfold is_store. rewrite Hw. lia.
Qed.

(** ** Turns are shared evenly *)

Lemma turns_start n i : 0 < n → Z.of_nat i < n → turns n i 0 = 0.
Proof. intros Hn Hi. unfold turns. apply Z.div_small. lia. Qed.

Lemma turns_close n i j v :
  0 < n → Z.of_nat i < n → Z.of_nat j < n →
  turns n i v ≤ turns n j v + 1.
Proof.
  intros Hn Hi Hj. unfold turns.
  rewrite <- (Z.div_add (v + n - 1 - Z.of_nat j) 1 n) by lia.
  apply Z.div_le_mono; lia.
Qed.

(** ** Where a run ends *)

(** X7.  In a run of any of the three classes the counter never passes
    [max(0, max_count - 1) + max_threads]: for [max_count >= 1] that is
    [max_count + max_threads - 1], as the worker that brings the counter
    to [max_count] leaves without incrementing again. *)
Theorem counter_stops_one_round_after_target (c : config) (s : state) :
  0 < max_threads c → reachable c s →
  val (mem s) ≤ Z.max 0 (max_count c - 1) + max_threads c.
Proof.
  intros Hn Hre. by destruct (bound_inv_reachable c Hn s Hre) as [Hb _].
Qed.

Lemma counter_stops_one_round_after_target_witness :
  val (mem (State (Shared 103 0) [Done; Done; Done; Done])) ≤ Z.max 0 (100 - 1) + 4.
Proof.
  apply (counter_stops_one_round_after_target (Config ResourceAtomicFlag 4 100)).
  - reflexivity.
  - exists (execSync (Config ResourceAtomicFlag 4 100)), (round_robin 4 103).
    split; [apply initial_execSync|vm_compute; reflexivity].
Defined.

(** X8.  With [ResourceAtomicFlag] or [ResourceMutex], two workers or
    more and [max_count >= 0], a complete run ends with the counter
    past [max_count]: the worker that has the turn at [max_count] has
    not yet been returned a value that ends its loop, and increments.
    With exactly two workers and [max_count >= 1] the run ends at
    [max_count + 1], whatever the schedule. *)
Theorem final_value_is_past_target (c : config) (s : state) :
  resource c ≠ ResourceAtomicSpin → 2 ≤ max_threads c → 0 ≤ max_count c →
  reachable c s → joined s →
  max_count c + 1 ≤ val (mem s) ∧
  (max_threads c = 2 → 1 ≤ max_count c → val (mem s) = max_count c + 1).
Proof.
  intros Hr Hn Ht Hre Hj.
  assert (Hpos : 0 < max_threads c) by lia.
  pose proof (joined_past_target c Hpos Hr Hn s Ht Hre Hj) as Hlow.
  split; [done|]. intros H2 H1.
  destruct (bound_inv_reachable c Hpos s Hre) as [Hb _].
  unfold last_round in Hb. lia.
Qed.

Lemma final_value_is_past_target_witness :
  let c := Config ResourceMutex 2 3 in
  let s := State (Shared 4 0) [Done; Done] in
  max_count c + 1 ≤ val (mem s) ∧
  (max_threads c = 2 → 1 ≤ max_count c → val (mem s) = max_count c + 1).
Proof.
  intros c s. apply (final_value_is_past_target c s).
  - discriminate.
  - discriminate.
  - discriminate.
  - exists (execSync c), (round_robin 2 4).
    split; [apply initial_execSync|vm_compute; reflexivity].
  - repeat constructor.
Defined.

(** ** What a call returns *)

Section Returned.
Context (c : config).
Hypothesis Hpos : 0 < max_threads c.
Hypothesis Hlock : resource c ≠ ResourceAtomicSpin.

Lemma release_holds_counter s i r :
  reachable c s → threads s !! i = Some (Release r) → r = val (mem s).
Proof.
  intros Hre. revert i r.
  induction Hre as [s (_ & Ht & _)|s l s' Hre IH Hs] using reachable_ind'.
  - intros i r. rewrite Ht. by intros [? _]%lookup_replicate.
  - intros i r Hi.
    destruct (decide (l.1 = i)) as [<-|Hne].
    + apply step_inv in Hs as (p & sh & p' & Hp & Hw & ->).
      assert (Hlt : (l.1 < length (threads s))%nat) by eauto using lookup_lt_Some.
      simpl in *. rewrite list_lookup_insert_eq in Hi by done. simplify_eq.
      by worker_cases Hw.
    + assert (Hi' : threads s !! i = Some (Release r)).
      { apply step_inv in Hs as (p & sh & p' & Hp & Hw & ->).
        simpl in Hi. by rewrite list_lookup_insert_ne in Hi. }
      rewrite (protected_code_is_atomic c Hpos s l s' i (Release r)); auto.
      by apply (IH i).
Qed.

End Returned.

(** ** When a run is stuck *)

Lemma joined_no_step c s l : joined s → step c s l = None.
Proof.
  intros Hj. unfold step.
  destruct (threads s !! l.1) as [p|] eqn:Hp; [|done].
  by rewrite (proj1 (Forall_lookup _ _) Hj _ _ Hp).
Qed.

(** X10.  For [max_threads > 0] with [max_count + max_threads] in the
    range of [int], a state of a run of any of the three classes has no
    step exactly when all workers have returned: the run is never
    stuck with a worker waiting, in particular not on the mutex. *)
Theorem stuck_only_when_joined (c : config) (s : state) :
  0 < max_threads c → 0 ≤ max_count c →
  max_count c + max_threads c ≤ INT_MAX →
  reachable c s →
  (joined s ↔ ∀ l, step c s l = None).
Proof.
  intros Hn Ht Hfit Hre.
  assert (Hfit' : last_round c + max_threads c ≤ INT_MAX).
  { unfold last_round. lia. }
  split.
  - intros Hj l. by apply joined_no_step.
  - intros Hstuck.
    destruct (can_finish c Hn Hfit' s Hre) as (ls & s' & Hr & Hj).
    destruct ls as [|l ls]; simpl in Hr.
    + by simplify_eq.
    + by rewrite Hstuck in Hr.
Qed.

Lemma stuck_only_when_joined_witness :
  let s := State (Shared 1 0) [Done; Done] in
  joined s ↔ ∀ l, step (Config ResourceAtomicSpin 2 1) s l = None.
Proof.
  apply (stuck_only_when_joined (Config ResourceAtomicSpin 2 1)).
  - reflexivity.
  - discriminate.
  - discriminate.
  - exists (execSync (Config ResourceAtomicSpin 2 1)),
      (replicate 3 (1%nat, false) ++ replicate 7 (0%nat, false)
         ++ replicate 3 (1%nat, false)).
    split; [apply initial_execSync|reflexivity].
Defined.

(** ** No workers *)

(** X12.  With [max_threads <= 0] ([hardware_concurrency] may give 0)
    [execSync] starts no worker: the run is complete at once, nothing
    steps, and the counter stays at 0, whatever [max_count] is. *)
Theorem no_workers_no_run (c : config) (s : state) :
  max_threads c ≤ 0 → reachable c s →
  threads s = [] ∧ joined s ∧ val (mem s) = 0 ∧ ∀ l, step c s l = None.
Proof.
  intros Hn Hre.
  assert (Hs : threads s = [] ∧ val (mem s) = 0).
  { induction Hre as [s (Hv & Ht & _)|s l s' Hre [IHt IHv] Hs] using reachable_ind'.
    - split; [|done]. rewrite Ht. by replace (Z.to_nat (max_threads c)) with 0%nat by lia.
    - apply step_inv in Hs as (p & sh & p' & Hp & _). by rewrite IHt in Hp. }
  destruct Hs as [Ht Hv]. split_and!; [done| |done|].
  - unfold joined. rewrite Ht. constructor.
  - intros l. unfold step. by rewrite Ht.
Qed.

Lemma no_workers_no_run_witness :
  let s := execSync (Config ResourceMutex 0 1000000) in
  threads s = [] ∧ joined s ∧ val (mem s) = 0 ∧
  ∀ l, step (Config ResourceMutex 0 1000000) s l = None.
Proof.
  apply (no_workers_no_run (Config ResourceMutex 0 1000000)).
  - discriminate.
  - apply reachable_initial, initial_execSync.
Defined.

(** ** One worker *)

Section Lone.
Context (c : config).
Hypothesis Hone : max_threads c = 1.

Lemma lone_index s i p : reachable c s → threads s !! i = Some p → i = 0%nat.
Proof.
  intros Hre Hi.
  destruct (turn_inv_reachable c ltac:(lia) s Hre) as (Hlen & _).
  apply lookup_lt_Some in Hi. lia.
Qed.

(** Every step brings the run nearer to its end. *)
Lemma lone_step_decreases s l s' :
  reachable c s → step c s l = Some s' →
  (lone_measure c s' < lone_measure c s)%nat.
Proof.
  intros Hre Hs.
  assert (Hpos : 0 < max_threads c) by lia.
  pose proof (turn_inv_reachable c Hpos s Hre) as Hinv.
  pose proof (bound_inv_reachable c Hpos s Hre) as Hb.
  pose proof Hinv as (Hlen & Hv & Hloc).
  pose proof Hb as [Hbound _]. rewrite Hone in Hbound.
  apply step_inv in Hs as (p & sh & p' & Hp & Hw & ->).
  pose proof (lone_index s _ _ Hre Hp) as Hl. destruct l as [i b]. simpl in *. subst i.
  assert (Hlt : (0 < length (threads s))%nat) by eauto using lookup_lt_Some.
  pose proof (Hloc _ _ Hp) as Hlp.
  assert (Hfree : resource c ≠ ResourceAtomicSpin → p = Acquire → lock (mem s) = 0).
  { intros Hr ->. destruct (lock_inv_reachable c s Hr Hre)
      as [[H0 _]|(_ & k & q & Hk & Hq & _)]; [done|].
    pose proof (lone_index s _ _ Hre Hk). subst k. by simplify_eq. }
  assert (Hroom : ∀ tmp, p = IncWrite tmp → val (mem s) < last_round c + 1).
  { intros tmp ->. destruct Hlp as [Hturn _].
    pose proof (turn_below_bound c Hpos s 0 _ Hinv Hb Hp (λ x, x) Hturn). lia. }
  unfold lone_measure, lone_rank. simpl.
  rewrite list_lookup_insert_eq by done. rewrite Hp.
  worker_cases Hw; simpl;
    repeat case_bool_decide; simpl; try lia;
    try (by exfalso; auto);
    try (rewrite Hone in *; rewrite Z.rem_1_r in *; done).
  all: specialize (Hroom _ eq_refl); destruct Hlp as [_ Htmp]; subst tmp; lia.
Qed.

Lemma lone_terminates s : reachable c s → terminates c s.
Proof.
  remember (lone_measure c s) as m eqn:Hm.
  revert s Hm. induction (lt_wf m) as [m _ IH]. intros s -> Hre.
  constructor. intros s' [l Hs].
  eapply IH; [by eapply lone_step_decreases|done|by eapply reachable_step].
Qed.

(** The worker's calls all increment, so its run ends past 0. *)
Lemma lone_past_zero s p :
  reachable c s → threads s !! 0%nat = Some p →
  match p with
  | Copy | Release _ | Return _ | Done => 1 ≤ val (mem s)
  | _ => True
  end.
Proof.
  intros Hre. revert p.
  induction Hre as [s (_ & Ht & _)|s l s' Hre IH Hs] using reachable_ind'.
  - intros p. rewrite Ht. by intros [-> _]%lookup_replicate.
  - intros q Hq.
    pose proof (turn_inv_reachable c ltac:(lia) s Hre) as Hinv.
    pose proof Hinv as (_ & Hv & _).
    apply step_inv in Hs as (p & sh & p' & Hp & Hw & ->).
    pose proof (lone_index s _ _ Hre Hp) as Hl. destruct l as [i b]. simpl in *. subst i.
    assert (Hlt : (0 < length (threads s))%nat) by eauto using lookup_lt_Some.
    rewrite list_lookup_insert_eq in Hq by done. simplify_eq.
    specialize (IH _ Hp).
    destruct Hinv as (_ & _ & Hloc). specialize (Hloc _ _ Hp).
    worker_cases Hw; try done; try lia.
    rewrite Hone, Z.rem_1_r in *. done.
Qed.

End Lone.

(** X13.  With one worker, every run of any of the three classes is
    finite, whatever the scheduler does; for [max_count] in the range
    of [int] it stops only when the worker has returned; and then the
    counter is [max_count], or 1 if [max_count] is not positive: the
    worker has the turn on every call. *)
Theorem one_worker_terminates (c : config) (s : state) :
  max_threads c = 1 → reachable c s →
  terminates c s ∧
  (max_count c ≤ INT_MAX → (∀ l, step c s l = None) → joined s) ∧
  (joined s → val (mem s) = Z.max 1 (max_count c)).
Proof.
  intros Hone Hre.
  assert (Hpos : 0 < max_threads c) by lia.
  split_and!; [by apply lone_terminates| |].
  - intros Hfit Hstuck.
    assert (Hfit' : last_round c + max_threads c ≤ INT_MAX).
    { unfold last_round, INT_MAX in *. lia. }
    destruct (can_finish c Hpos Hfit' s Hre) as (ls & s' & Hr & Hj).
    destruct ls as [|l ls]; simpl in Hr; [by simplify_eq|by rewrite Hstuck in Hr].
  - intros Hj.
    pose proof (turn_inv_reachable c Hpos s Hre) as (Hlen & Hv & Hloc).
    destruct (bound_inv_reachable c Hpos s Hre) as [Hb _].
    destruct (lookup_lt_is_Some_2 (threads s) 0) as [p Hp]; [lia|].
    pose proof (proj1 (Forall_lookup _ _) Hj _ _ Hp) as ->.
    pose proof (lone_past_zero c Hone s _ Hre Hp) as Hone'.
    specialize (Hloc _ _ Hp). simpl in *. unfold last_round in Hb. lia.
Qed.

Lemma one_worker_terminates_witness :
  let c := Config ResourceAtomicFlag 1 10 in
  let s := State (Shared 10 0) [Done] in
  terminates c s ∧
  (max_count c ≤ INT_MAX → (∀ l, step c s l = None) → joined s) ∧
  (joined s → val (mem s) = Z.max 1 (max_count c)).
Proof.
  intros c s. apply (one_worker_terminates c s).
  - reflexivity.
  - exists (execSync c), (round_robin 1 10).
    split; [apply initial_execSync|vm_compute; reflexivity].
Defined.

(** ** The runs of [main] *)

Lemma main_max_count_nonneg stoi argv : 0 ≤ main_max_count stoi argv.
Proof.
  unfold main_max_count. destruct argv as [|prog [|arg rest]]; try done.
  destruct (stoi arg) as [v|]; [|done]. case_bool_decide; [done|lia].
Qed.

(** X14.  When [hardware_concurrency] gives a positive number and the
    target count [main] settles on, plus twice that number, is in the
    range of [int]: each of the six runs [main] starts has a positive
    number of workers (the detected number or twice it) and the target
    [main] settled on, which is not negative; from every state it
    reaches the run can be completed; and when it is complete its
    counter has reached the target. *)
Theorem main_runs_can_complete (stoi : string → option Z) (argv : list string)
    (max_threads_dflt : Z) (c : config) (s : state) :
  0 < max_threads_dflt →
  main_max_count stoi argv + 2 * max_threads_dflt ≤ INT_MAX →
  c ∈ main_runs max_threads_dflt (main_max_count stoi argv) →
  reachable c s →
  (max_threads c = max_threads_dflt ∨ max_threads c = max_threads_dflt * 2) ∧
  max_count c = main_max_count stoi argv ∧ 0 ≤ max_count c ∧
  (∃ ls s', run c s ls = Some s' ∧ joined s') ∧
  (joined s → max_count c ≤ val (mem s)).
Proof.
  intros Hhw Hfit Hc Hre.
  pose proof (main_max_count_nonneg stoi argv) as Hmc.
  assert (Hshape : (max_threads c = max_threads_dflt ∨
                    max_threads c = max_threads_dflt * 2) ∧
                   max_count c = main_max_count stoi argv).
  { unfold main_runs in Hc.
    repeat (apply elem_of_cons in Hc as [->|Hc]; [simpl; auto|]).
    by apply elem_of_nil in Hc. }
  destruct Hshape as [Hn Ht].
  assert (Hpos : 0 < max_threads c) by lia.
  assert (Hfit' : last_round c + max_threads c ≤ INT_MAX).
  { unfold last_round. lia. }
  split_and!; [done|done|lia| |].
  - by apply can_finish.
  - by apply joined_reached.
Qed.

Lemma main_runs_can_complete_witness :
  let c := Config ResourceAtomicFlag 8 250 in
  let s := execSync c in
  (max_threads c = 4 ∨ max_threads c = 4 * 2) ∧
  max_count c = main_max_count std_stoi ["lstest"; "250"] ∧ 0 ≤ max_count c ∧
  (∃ ls s', run c s ls = Some s' ∧ joined s') ∧
  (joined s → max_count c ≤ val (mem s)).
Proof.
  intros c s.
  apply (main_runs_can_complete std_stoi ["lstest"; "250"] 4 c s).
  - reflexivity.
  - discriminate.
  - do 3 (apply elem_of_cons; right). apply elem_of_cons. by left.
  - apply reachable_initial, initial_execSync.
Defined.

(** X15.  An argument written in decimal digits, whose value is in the
    range of [int], is read by [std::stoi] (as modelled from the
    library's contract) as that value, and [main] takes it as
    [max_count] unchanged. *)
Theorem decimal_argument_is_used (prog : string) (ds : list nat) (rest : list string) :
  ds ≠ [] → Forall (λ d, d < 10)%nat ds → decimal_value ds ≤ INT_MAX →
  std_stoi (decimal ds) = Some (decimal_value ds) ∧
  main_max_count std_stoi (prog :: decimal ds :: rest) = decimal_value ds.
Proof.
  intros Hne Hds Hmax.
  assert (Hmin : 0 ≤ decimal_value ds).
  { unfold decimal_value.
    assert (Hgen : ∀ acc, 0 ≤ acc →
              0 ≤ fold_left (λ a d, 10 * a + Z.of_nat d) ds acc).
    { clear. induction ds as [|d ds IH]; intros acc Hacc; simpl; [done|].
      apply IH. lia. }
    by apply Hgen. }
  split; [by apply std_stoi_decimal|by apply main_uses_decimal_argument].
Qed.

Lemma decimal_argument_is_used_witness :
  std_stoi (decimal [1; 0; 0; 0; 0; 0; 0]%nat) = Some 1000000 ∧
  main_max_count std_stoi ["lstest"; decimal [1; 0; 0; 0; 0; 0; 0]%nat] = 1000000.
Proof.
  apply (decimal_argument_is_used "lstest" [1; 0; 0; 0; 0; 0; 0]%nat []).
  - discriminate.
  - repeat constructor.
  - discriminate.
Defined.

(** ** No overflow *)

(** X16.  When [max(0, max_count - 1) + max_threads] is in the range of
    [int], no [val++] of a run of any of the three classes overflows:
    the value a worker has loaded for the store is below [INT_MAX]. *)
Theorem no_overflow_in_a_run (c : config) (s : state) (i : nat) (tmp : Z) :
  0 < max_threads c →
  Z.max 0 (max_count c - 1) + max_threads c ≤ INT_MAX →
  reachable c s → threads s !! i = Some (IncWrite tmp) →
  tmp < INT_MAX ∧ incr tmp = Some (tmp + 1).
Proof.
  intros Hn Hfit Hre Hi.
  pose proof (increment_defined c Hn Hfit s i tmp Hre Hi) as Hincr.
  split; [|done]. unfold incr in Hincr. by case_decide.
Qed.

Lemma no_overflow_in_a_run_witness : 0 < INT_MAX ∧ incr 0 = Some (0 + 1).
Proof.
  apply (no_overflow_in_a_run (Config ResourceAtomicSpin 2 1)
           (State (Shared 0 1) [IncWrite 0; Test]) 0 0).
  - reflexivity.
  - discriminate.
  - exists (execSync (Config ResourceAtomicSpin 2 1)),
      [(0%nat, false); (0%nat, false); (1%nat, false); (0%nat, false); (0%nat, false)].
    split; [apply initial_execSync|reflexivity].
  - reflexivity.
Defined.

(** * The counter at the end of [int] *)

(** ** Where the wrapped store and the defined one agree *)

Lemma wrap_int_in_range z : -2147483648 ≤ z ≤ INT_MAX → wrap_int z = z.
Proof.
  intros Hz. unfold wrap_int, INT_MAX in *.
  rewrite Z.mod_small by lia. lia.
Qed.

Lemma wrap_int_past_INT_MAX : wrap_int (INT_MAX + 1) = -2147483648.
Proof. reflexivity. Qed.

(** A defined step is a step of the compiled code. *)
Lemma step_step_wrap c s l s' :
  turn_inv c s → step c s l = Some s' → step_wrap c s l = Some s'.
Proof.
  intros (_ & Hv & Hloc) Hs. unfold step_wrap.
  destruct (threads s !! l.1) as [p|] eqn:Hp; [|done].
  destruct p; try done.
  specialize (Hloc _ _ Hp). simpl in Hloc. destruct Hloc as [_ ->].
  apply step_inv in Hs as (p & sh & p' & Hp' & Hw & ->).
  simplify_eq. worker_cases Hw.
  rewrite wrap_int_in_range; [done|lia].
Qed.

Lemma run_run_wrap c s ls s' :
  0 < max_threads c → turn_inv c s → run c s ls = Some s' →
  run_wrap c s ls = Some s'.
Proof.
  intros Hn. revert s. induction ls as [|l ls IH]; intros s Hinv Hr; simpl in *; [done|].
  destruct (step c s l) as [s1|] eqn:H1; simpl in Hr; [|done].
  rewrite (step_step_wrap _ _ _ _ Hinv H1). simpl.
  apply IH; [|done]. by eapply turn_inv_step.
Qed.

Section InRange.
Context (c : config).
Hypothesis Hpos : 0 < max_threads c.
Hypothesis Hfit : in_range c.

(** In range, the compiled code takes the defined steps and no
    other. *)
Lemma step_wrap_step s l : reachable c s → step_wrap c s l = step c s l.
Proof.
  intros Hre. unfold step_wrap.
  destruct (threads s !! l.1) as [p|] eqn:Hp; [|done].
  destruct p; try done.
  pose proof (increment_defined c Hpos Hfit s _ _ Hre Hp) as Hincr.
  destruct (turn_inv_reachable c Hpos s Hre) as (_ & Hv & Hloc).
  specialize (Hloc _ _ Hp). simpl in Hloc. destruct Hloc as [_ ->].
  unfold step. rewrite Hp. simpl. rewrite Hincr. simpl.
  rewrite wrap_int_in_range; [done|].
  unfold incr in Hincr. case_decide; [lia|done].
Qed.

Lemma run_wrap_run s ls : reachable c s → run_wrap c s ls = run c s ls.
Proof.
  revert s. induction ls as [|l ls IH]; intros s Hre; simpl; [done|].
  rewrite (step_wrap_step s l Hre).
  destruct (step c s l) as [s1|] eqn:H1; simpl; [|done].
  apply IH. by eapply reachable_step.
Qed.

Lemma reachable_wrap_reachable s : reachable_wrap c s → reachable c s.
Proof.
  intros (s0 & ls & H0 & Hr).
  rewrite run_wrap_run in Hr by by apply reachable_initial.
  by exists s0, ls.
Qed.

End InRange.

(** ** Counting up to a value *)

Section Climb.
Context (c : config).
Hypothesis Hpos : 0 < max_threads c.

(** From a calm state a worker can make one whole call, alone, as long
    as its [val++] is defined. *)
Lemma call_from_calm_room s i :
  reachable c s → calm s → threads s !! i = Some Acquire →
  val (mem s) < INT_MAX →
  ∃ ls sh q,
    run c s ls = Some (State sh (<[i := q]> (threads s))) ∧
    val sh = turn_value (max_threads c) i (val (mem s)) ∧
    q = (if bool_decide (val sh < max_count c) then Acquire else Done).
Proof.
  intros Hre Hcalm Hi Hroom.
  pose proof (turn_inv_reachable c Hpos s Hre) as (_ & Hv & _).
  assert (Hlt : (i < length (threads s))%nat) by eauto using lookup_lt_Some.
  assert (Hfree : resource c ≠ ResourceAtomicSpin → lock (mem s) = 0).
  { intros Hr. destruct (lock_inv_reachable c s Hr Hre)
      as [[H0 _]|(_ & k & p & Hk & Hp & _)]; [done|].
    destruct (Hcalm _ _ Hk); by subst. }
  set (ret := turn_value (max_threads c) i (val (mem s))).
  assert (Hcall : inc_alone 7 (resource c) (max_threads c) i (λ _, false) (mem s) Acquire
                  = Some (ret, Shared ret 0)).
  { destruct (mem s) as [v l] eqn:Hm. cbn [val lock] in *. by apply inc_alone_spec. }
  destruct (inc_alone_run c s i _ _ _ _ _ Hi ltac:(done) Hcall) as (ls & _ & Hrun).
  exists (ls ++ [(i, false)]), (Shared ret 0),
    (if bool_decide (ret < max_count c) then Acquire else Done).
  split_and!; [|done|done].
  eapply run_snoc; [done|]. unfold step. cbn [fst snd threads mem].
  rewrite list_lookup_insert_eq by done. cbn [mbind option_bind worker].
  case_bool_decide; cbn [mbind option_bind]; by rewrite list_insert_insert_eq.
Qed.

(** The workers can bring the counter to any value up to [max_count]. *)
Lemma climb v :
  0 ≤ v → v ≤ max_count c → v ≤ INT_MAX →
  ∃ ls s, run c (execSync c) ls = Some s ∧ calm s ∧ val (mem s) = v.
Proof.
  intros Hv. revert v Hv. apply (natlike_ind (λ v, v ≤ max_count c → v ≤ INT_MAX →
    ∃ ls s, run c (execSync c) ls = Some s ∧ calm s ∧ val (mem s) = v)).
  - intros _ _. exists [], (execSync c). split_and!; [done| |done].
    intros i p. simpl. intros [-> _]%lookup_replicate. by left.
  - intros v Hv IH Ht Hmax.
    destruct IH as (ls & s & Hrun & Hcalm & Hval); [lia|lia|].
    pose proof (reachable_run c _ _ _
                  (reachable_initial c _ (initial_execSync c)) Hrun) as Hre.
    pose proof (turn_inv_reachable c Hpos s Hre) as (Hlen & _ & Hloc).
    pose proof (Z.mod_pos_bound v (max_threads c) Hpos) as Hk.
    destruct (lookup_lt_is_Some_2 (threads s) (Z.to_nat (v mod max_threads c)))
      as [p Hp]; [lia|].
    assert (p = Acquire) as ->.
    { destruct (Hcalm _ _ Hp) as [->| ->]; [done|].
      specialize (Hloc _ _ Hp). simpl in Hloc. lia. }
    destruct (call_from_calm_room s _ Hre Hcalm Hp ltac:(lia))
      as (ls' & sh & q & Hrun' & Hval' & Hq).
    exists (ls ++ ls'), (State sh (<[Z.to_nat (v mod max_threads c) := q]> (threads s))).
    split_and!.
    + rewrite run_app, Hrun. done.
    + apply calm_insert; [done|]. subst q. case_bool_decide; auto.
    + cbn [mem]. rewrite Hval', Hval. unfold turn_value.
      rewrite bool_decide_true by lia. lia.
Qed.

End Climb.

(** ** The counter goes up, in range *)

(** With a lock that excludes, the worker on turn gets from its locking
    loop to the store of [val++] in three steps. *)
Lemma reach_store c s i :
  0 < max_threads c → resource c ≠ ResourceAtomicSpin →
  reachable c s → calm s → threads s !! i = Some Acquire →
  Z.rem (val (mem s)) (max_threads c) = Z.of_nat i →
  run c s (replicate 3 (i, false))
  = Some (State (Shared (val (mem s)) 1)
                (<[i := IncWrite (val (mem s))]> (threads s))).
Proof.
  intros Hn Hr Hre Hcalm Hi Hturn.
  assert (Hlt : (i < length (threads s))%nat) by eauto using lookup_lt_Some.
  assert (Hfree : lock (mem s) = 0).
  { destruct (lock_inv_reachable c s Hr Hre)
      as [[H0 _]|(_ & k & p & Hk & Hp & _)]; [done|].
    destruct (Hcalm _ _ Hk); by subst. }
  assert (H1 : step c s (i, false)
               = Some (State (Shared (val (mem s)) 1) (<[i := Test]> (threads s)))).
  { eapply step_intro; [done|]. cbn [worker inc]. unfold acquire.
    destruct (resource c); [done| |]; by rewrite bool_decide_true. }
  assert (H2 : step c (State (Shared (val (mem s)) 1) (<[i := Test]> (threads s))) (i, false)
               = Some (State (Shared (val (mem s)) 1) (<[i := IncRead]> (threads s)))).
  { erewrite step_intro; cycle 1.
    - cbn [threads]. by rewrite list_lookup_insert_eq.
    - cbn [worker inc mem val]. by rewrite bool_decide_true.
    - cbn [threads]. by rewrite list_insert_insert_eq. }
  assert (H3 : step c (State (Shared (val (mem s)) 1) (<[i := IncRead]> (threads s))) (i, false)
               = Some (State (Shared (val (mem s)) 1)
                             (<[i := IncWrite (val (mem s))]> (threads s)))).
  { erewrite step_intro; cycle 1.
    - cbn [threads]. by rewrite list_lookup_insert_eq.
    - cbn [worker inc mem val]. done.
    - cbn [threads]. by rewrite list_insert_insert_eq. }
  cbn [replicate run]. rewrite H1. cbn [mbind option_bind].
  rewrite H2. cbn [mbind option_bind]. rewrite H3. done.
Qed.

(** C8, as stated, fails.  With [ResourceMutex], two workers and
    [max_count = INT_MAX], the workers bring the counter to [INT_MAX];
    worker 0, which made the last increment, returns; worker 1 has the
    turn and has not been returned a value that ends its loop, so it
    goes on to [val++], and the store takes the counter from [INT_MAX]
    to [INT_MIN]. *)
Lemma counter_goes_down_at_INT_MAX :
  ∃ s s',
    reachable_wrap (Config ResourceMutex 2 INT_MAX) s ∧
    step_wrap (Config ResourceMutex 2 INT_MAX) s (1%nat, false) = Some s' ∧
    val (mem s) = INT_MAX ∧ val (mem s') = -2147483648.
Proof.
  pose proof (eq_refl : 0 < max_threads (Config ResourceMutex 2 INT_MAX)) as Hpos.
  assert (Hr : resource (Config ResourceMutex 2 INT_MAX) ≠ ResourceAtomicSpin) by done.
  destruct (climb (Config ResourceMutex 2 INT_MAX) Hpos INT_MAX)
    as (ls & s & Hrun & Hcalm & Hval); [done|apply Z.le_refl|apply Z.le_refl|].
  pose proof (reachable_run _ _ _ _
                (reachable_initial _ _ (initial_execSync _)) Hrun) as Hre.
  pose proof (turn_inv_reachable _ Hpos s Hre) as (Hlen & _ & _).
  destruct (lookup_lt_is_Some_2 (threads s) 1) as [p Hp].
  { rewrite Hlen. cbn [max_threads]. lia. }
  assert (p = Acquire) as ->.
  { destruct (Hcalm _ _ Hp) as [->| ->]; [done|]. exfalso.
    apply (off_turn_inv_reachable _ Hpos Hr ltac:(done) s Hre _ _ Hp Hval).
    reflexivity. }
  assert (Hturn : Z.rem (val (mem s)) (max_threads (Config ResourceMutex 2 INT_MAX))
                  = Z.of_nat 1).
  { rewrite Hval. reflexivity. }
  pose proof (reach_store _ s 1 Hpos Hr Hre Hcalm Hp Hturn) as Hstore.
  assert (Hlt : (1 < length (threads s))%nat) by eauto using lookup_lt_Some.
  eexists _, _. split_and!.
  - exists (execSync (Config ResourceMutex 2 INT_MAX)),
      (ls ++ replicate 3 (1%nat, false)).
    split; [apply initial_execSync|].
    apply run_run_wrap; [done|apply turn_inv_initial, initial_execSync|].
    rewrite run_app, Hrun. exact Hstore.
  - unfold step_wrap. cbn [fst threads].
    rewrite list_lookup_insert_eq by done. reflexivity.
  - cbn [mem val]. done.
  - cbn [mem val]. rewrite Hval. apply wrap_int_past_INT_MAX.
Qed.

(** C8, as the code has it.  When [max(0, max_count - 1) + max_threads]
    is in the range of [int], in a run of any of the three classes the
    counter never goes down: every step, the stores of the compiled
    code included, leaves it as it is or adds exactly one, and between
    any two points of a run the later value is at least the earlier. *)
Theorem counter_is_monotone (c : config) (s : state) :
  0 < max_threads c → in_range c → reachable_wrap c s →
  (∀ l s', step_wrap c s l = Some s' →
     val (mem s') = val (mem s) ∨ val (mem s') = val (mem s) + 1) ∧
  (∀ ls s', run_wrap c s ls = Some s' → val (mem s) ≤ val (mem s')).
Proof.
  intros Hn Hfit Hre%(reachable_wrap_reachable c Hn Hfit).
  pose proof (turn_inv_reachable c Hn s Hre) as Hinv. split.
  - intros l s'. rewrite (step_wrap_step c Hn Hfit s l Hre). intros Hs.
    destruct (step_val _ _ _ _ Hinv Hs) as [?|[? _]]; auto.
  - intros ls s'. rewrite (run_wrap_run c Hn Hfit s ls Hre). intros Hr.
    by eapply run_val_mono.
Qed.

Lemma counter_is_monotone_witness :
  let c := Config ResourceAtomicFlag 2 5 in
  let s := execSync c in
  (∀ l s', step_wrap c s l = Some s' →
     val (mem s') = val (mem s) ∨ val (mem s') = val (mem s) + 1) ∧
  (∀ ls s', run_wrap c s ls = Some s' → val (mem s) ≤ val (mem s')).
Proof.
  intros c s. apply (counter_is_monotone c s).
  - reflexivity.
  - discriminate.
  - exists (execSync c), []. split; [apply initial_execSync|reflexivity].
Defined.

(** ** The loop of [worker] *)


Lemma step_Done c s i b : threads s !! i = Some Done → step c s (i, b) = None.
Proof. intros Hi. unfold step. cbn [fst snd]. by rewrite Hi. Qed.







Lemma step_wrap_Done c s i b :
  threads s !! i = Some Done → step_wrap c s (i, b) = None.
Proof.
  intros Hi. unfold step_wrap. cbn [fst]. rewrite Hi. by apply step_Done.
Qed.







(** ** What [main] makes of its argument *)

Lemma decimal_value_nonneg ds : 0 ≤ decimal_value ds.
Proof.
  unfold decimal_value.
  assert (Hgen : ∀ acc, 0 ≤ acc → 0 ≤ fold_left (λ a d, 10 * a + Z.of_nat d) ds acc).
  { induction ds as [|d ds IH]; intros acc Hacc; cbn [fold_left]; [done|].
    apply IH. lia. }
  by apply Hgen.
Qed.

Lemma std_stoi_unfold s :
  std_stoi s
  = read_number (match skip_space s with String "-"%char _ => true | _ => false end)
                (after_sign (skip_space s)).
Proof.
  unfold std_stoi, after_sign. destruct (skip_space s) as [|a r]; [done|].
  by destruct a as [[] [] [] [] [] [] [] []].
Qed.

Lemma read_number_no_digit neg s : starts_with_digit s = false → read_number neg s = None.
Proof.
  destruct s as [|a r]; [done|]. cbn [starts_with_digit read_number].
  intros Hd. destruct (digit_of a) as [d|] eqn:Ha; [|done].
  rewrite bool_decide_true in Hd by eauto. done.
Qed.

Lemma read_number_range neg s v :
  read_number neg s = Some v → INT_MIN ≤ v ≤ INT_MAX.
Proof.
  destruct s as [|a r]; [done|]. cbn [read_number].
  destruct (digit_of a); [|done].
  destruct (bool_decide (INT_MIN ≤ _)) eqn:H1; [|done].
  destruct (bool_decide (_ ≤ INT_MAX)) eqn:H2; [|done].
  cbn [andb]. intros [= <-].
  apply bool_decide_eq_true in H1. apply bool_decide_eq_true in H2. done.
Qed.

Lemma append_empty (t : string) : "" +:+ t = t.
Proof. reflexivity. Qed.

Lemma append_String a (s t : string) : String a s +:+ t = String a (s +:+ t).
Proof. reflexivity. Qed.

Lemma read_digits_prefix ds tail acc :
  Forall (λ d, d < 10)%nat ds → starts_with_digit tail = false →
  read_digits acc (decimal ds +:+ tail) = fold_left (λ a d, 10 * a + Z.of_nat d) ds acc.
Proof.
  intros Hds Htail. revert acc. induction Hds as [|d ds Hd _ IH]; intros acc.
  - cbn [decimal fold_left]. rewrite append_empty. destruct tail as [|a r]; [done|].
    cbn [starts_with_digit read_digits] in *.
    destruct (digit_of a) as [x|] eqn:Ha; [|done].
    rewrite bool_decide_true in Htail by eauto. done.
  - cbn [decimal fold_left]. rewrite append_String. cbn [read_digits].
    rewrite digit_of_digit_char by done. apply IH.
Qed.

(** An argument that starts with a decimal number: [std::stoi] reads
    the number and stops. *)
Lemma std_stoi_prefix_value ds tail :
  ds ≠ [] → Forall (λ d, d < 10)%nat ds → starts_with_digit tail = false →
  std_stoi (decimal ds +:+ tail)
  = if bool_decide (decimal_value ds ≤ INT_MAX) then Some (decimal_value ds) else None.
Proof.
  intros Hne Hds Htail. destruct ds as [|d ds]; [done|].
  pose proof (read_digits_prefix (d :: ds) tail 0 Hds Htail) as Hread.
  pose proof (decimal_value_nonneg (d :: ds)) as Hpos.
  inversion Hds as [|? ? Hd Hds']; subst.
  cbn [decimal] in *. rewrite append_String in *.
  assert (Hshape : ∀ r, std_stoi (String (digit_char d) r)
                        = read_number false (String (digit_char d) r)).
  { intros r. do 10 (destruct d as [|d]; [reflexivity|]). lia. }
  rewrite Hshape. cbn [read_number]. rewrite digit_of_digit_char by done.
  rewrite Hread. fold (decimal_value (d :: ds)).
  rewrite (bool_decide_true (INT_MIN ≤ _)) by (unfold INT_MIN; lia). done.
Qed.

(** The same after a minus sign. *)
Lemma std_stoi_minus_prefix ds tail :
  ds ≠ [] → Forall (λ d, d < 10)%nat ds → starts_with_digit tail = false →
  std_stoi (String "-" (decimal ds +:+ tail))
  = if bool_decide (INT_MIN ≤ - decimal_value ds)
    then Some (- decimal_value ds) else None.
Proof.
  intros Hne Hds Htail. destruct ds as [|d ds]; [done|].
  pose proof (read_digits_prefix (d :: ds) tail 0 Hds Htail) as Hread.
  pose proof (decimal_value_nonneg (d :: ds)) as Hpos.
  inversion Hds as [|? ? Hd Hds']; subst.
  cbn [decimal] in *. rewrite append_String in *.
  change (std_stoi (String "-" (String (digit_char d) (decimal ds +:+ tail))))
    with (read_number true (String (digit_char d) (decimal ds +:+ tail))).
  cbn [read_number]. rewrite digit_of_digit_char by done.
  rewrite Hread. fold (decimal_value (d :: ds)).
  rewrite (bool_decide_true (_ ≤ INT_MAX)) by (unfold INT_MAX; lia).
  by rewrite andb_true_r.
Qed.

(** C9, as stated, fails: [12abc] is no numeral, and [main] takes 12
    from it; [3000000000] is a numeral that is not negative, and [main]
    takes the default. *)
Lemma non_numeric_argument_is_used :
  ¬ (∀ arg, spec_numeric arg = false →
       main_max_count std_stoi ["lstest"; arg] = max_count_dflt) ∧
  ¬ (∀ ds, ds ≠ [] → Forall (λ d, d < 10)%nat ds →
       spec_numeric (decimal ds) = true ∧
       main_max_count std_stoi ["lstest"; decimal ds] = decimal_value ds).
Proof.
  split.
  - intros H. specialize (H "12abc" eq_refl). discriminate H.
  - intros H.
    destruct (H [3; 0; 0; 0; 0; 0; 0; 0; 0; 0]%nat) as [_ Hv];
      [done|by repeat constructor|]. discriminate Hv.
Qed.

(** C9, as the code has it.  [main] always goes on with a target count
    between 0 and [INT_MAX]: no exception leaves the [try] block.  It is
    the default 1000000 when there is no argument; when no digit
    follows the argument's leading white space and sign; when the
    number the argument starts with is outside [int]; and when the
    argument starts with a minus sign and a number that is not zero.
    When the argument starts with a number within [int], the target
    count is that number, whatever follows the digits. *)
Theorem target_count_recovery :
  (∀ argv, 0 ≤ main_max_count std_stoi argv ≤ INT_MAX) ∧
  (∀ prog, main_max_count std_stoi [] = max_count_dflt ∧
           main_max_count std_stoi [prog] = max_count_dflt) ∧
  (∀ prog arg rest,
     starts_with_digit (after_sign (skip_space arg)) = false →
     main_max_count std_stoi (prog :: arg :: rest) = max_count_dflt) ∧
  (∀ prog ds tail rest,
     ds ≠ [] → Forall (λ d, d < 10)%nat ds → starts_with_digit tail = false →
     main_max_count std_stoi (prog :: (decimal ds +:+ tail) :: rest)
     = if bool_decide (decimal_value ds ≤ INT_MAX)
       then decimal_value ds else max_count_dflt) ∧
  (∀ prog ds tail rest,
     ds ≠ [] → Forall (λ d, d < 10)%nat ds → starts_with_digit tail = false →
     0 < decimal_value ds →
     main_max_count std_stoi (prog :: String "-" (decimal ds +:+ tail) :: rest)
     = max_count_dflt).
Proof.
  split_and!.
  - intros argv. unfold main_max_count.
    destruct argv as [|prog [|arg rest]]; try done.
    destruct (std_stoi arg) as [v|] eqn:Hv; [|done].
    rewrite std_stoi_unfold in Hv. apply read_number_range in Hv.
    case_bool_decide; [done|lia].
  - done.
  - intros prog arg rest Hno. unfold main_max_count.
    by rewrite std_stoi_unfold, read_number_no_digit.
  - intros prog ds tail rest Hne Hds Htail. unfold main_max_count.
    rewrite std_stoi_prefix_value by done.
    pose proof (decimal_value_nonneg ds).
    case_bool_decide; [|done]. by rewrite bool_decide_false by lia.
  - intros prog ds tail rest Hne Hds Htail Hpos. unfold main_max_count.
    rewrite std_stoi_minus_prefix by done.
    case_bool_decide; [|done]. by rewrite bool_decide_true by lia.
Qed.

Lemma target_count_recovery_witness :
  main_max_count std_stoi ["lstest"; "12abc"] = 12 ∧
  main_max_count std_stoi ["lstest"; "3000000000"] = max_count_dflt ∧
  main_max_count std_stoi ["lstest"; "-5"] = max_count_dflt ∧
  main_max_count std_stoi ["lstest"; "abc"] = max_count_dflt.
Proof.
  split_and!.
  - refine (proj1 (proj2 (proj2 (proj2 target_count_recovery)))
              "lstest" [1; 2]%nat "abc" [] _ _ _);
      [discriminate|repeat constructor|reflexivity].
  - refine (proj1 (proj2 (proj2 (proj2 target_count_recovery)))
              "lstest" [3; 0; 0; 0; 0; 0; 0; 0; 0; 0]%nat "" [] _ _ _);
      [discriminate|repeat constructor|reflexivity].
  - refine (proj2 (proj2 (proj2 (proj2 target_count_recovery)))
              "lstest" [5]%nat "" [] _ _ _ _);
      [discriminate|repeat constructor|reflexivity|reflexivity].
  - exact (proj1 (proj2 (proj2 target_count_recovery)) "lstest" "abc" [] eq_refl).
Defined.

(** ** In range: what the counter counts *)

(** X5.  When [max(0, max_count - 1) + max_threads] is in the range of
    [int], in a run of any of the three classes, the stores of the
    compiled code included, the counter grows by exactly the number of
    stores of [val++] made: no increment is lost and none counts twice,
    also when the lock of [ResourceAtomicSpin] lets several workers
    into the protected code. *)
Theorem no_increment_is_lost (c : config) (s s' : state) (ls : list label) :
  0 < max_threads c → in_range c →
  reachable_wrap c s → run_wrap c s ls = Some s' →
  val (mem s') = val (mem s) + Z.of_nat (stores c s ls).
Proof.
  intros Hn Hfit Hre%(reachable_wrap_reachable c Hn Hfit).
  rewrite (run_wrap_run c Hn Hfit s ls Hre). intros Hr.
  apply stores_val; [done| |done]. by apply turn_inv_reachable.
Qed.

Lemma no_increment_is_lost_witness :
  let c := Config ResourceAtomicSpin 2 1 in
  let ls := replicate 3 (1%nat, false) ++ replicate 7 (0%nat, false)
              ++ replicate 3 (1%nat, false) in
  val (mem (State (Shared 1 0) [Done; Done]))
  = val (mem (execSync c)) + Z.of_nat (stores c (execSync c) ls).
Proof.
  intros c ls. apply (no_increment_is_lost c (execSync c)).
  - reflexivity.
  - discriminate.
  - exists (execSync c), []. split; [apply initial_execSync|reflexivity].
  - reflexivity.
Defined.

(** X6.  When [max(0, max_count - 1) + max_threads] is in the range of
    [int], in a run of any of the three classes from the start, the
    stores of the compiled code included, worker [i] has incremented
    once for each value below the counter on which it has the turn,
    [(val + max_threads - 1 - i) / max_threads] times; so the numbers
    of increments of two workers differ by at most one. *)
Theorem turns_are_shared_evenly (c : config) (s : state) (ls : list label) (i j : nat) :
  0 < max_threads c → in_range c →
  Z.of_nat i < max_threads c → Z.of_nat j < max_threads c →
  run_wrap c (execSync c) ls = Some s →
  Z.of_nat (increments c i (execSync c) ls)
  = (val (mem s) + max_threads c - 1 - Z.of_nat i) / max_threads c ∧
  Z.of_nat (increments c i (execSync c) ls)
  ≤ Z.of_nat (increments c j (execSync c) ls) + 1.
Proof.
  intros Hn Hfit Hi Hj.
  rewrite (run_wrap_run c Hn Hfit _ ls
             (reachable_initial c _ (initial_execSync c))).
  intros Hr.
  pose proof (turn_inv_initial c _ (initial_execSync c)) as Hinv.
  pose proof (increments_turns c Hn _ _ _ i Hinv Hr Hi) as Hci.
  pose proof (increments_turns c Hn _ _ _ j Hinv Hr Hj) as Hcj.
  simpl in Hci, Hcj. rewrite turns_start in Hci, Hcj by done.
  rewrite Hci, Hcj, !Z.sub_0_r. split; [done|]. by apply turns_close.
Qed.

Lemma turns_are_shared_evenly_witness :
  let c := Config ResourceMutex 3 4 in
  let ls := round_robin 3 6 in
  Z.of_nat (increments c 0 (execSync c) ls)
  = (val (mem (State (Shared 6 0) [Done; Done; Done])) + 3 - 1 - Z.of_nat 0) / 3 ∧
  Z.of_nat (increments c 0 (execSync c) ls)
  ≤ Z.of_nat (increments c 2 (execSync c) ls) + 1.
Proof.
  intros c ls.
  apply (turns_are_shared_evenly c (State (Shared 6 0) [Done; Done; Done]) ls 0 2).
  - reflexivity.
  - discriminate.
  - reflexivity.
  - reflexivity.
  - vm_compute. reflexivity.
Defined.

(** X9.  When [max(0, max_count - 1) + max_threads] is in the range of
    [int], in every state the compiled code reaches: what [inc]
    returns never exceeds the counter, in any of the three classes;
    with [ResourceAtomicFlag] and [ResourceMutex] the value a worker
    holds when it releases the lock is the counter's value at that
    moment. *)
Theorem returned_value_is_the_counter (c : config) (s : state) (i : nat) (r : Z) :
  0 < max_threads c → in_range c → reachable_wrap c s →
  (threads s !! i = Some (Return r) → r ≤ val (mem s)) ∧
  (resource c ≠ ResourceAtomicSpin →
   threads s !! i = Some (Release r) → r = val (mem s)).
Proof.
  intros Hn Hfit Hre%(reachable_wrap_reachable c Hn Hfit). split.
  - intros Hi. destruct (turn_inv_reachable c Hn s Hre) as (_ & _ & Hloc).
    apply (Hloc _ _ Hi).
  - intros Hr Hi. by eapply release_holds_counter.
Qed.

Lemma returned_value_is_the_counter_witness :
  let s := State (Shared 1 1) [Release 1; Acquire] in
  (threads s !! 0%nat = Some (Return 1) → 1 ≤ val (mem s)) ∧
  (ResourceAtomicFlag ≠ ResourceAtomicSpin →
   threads s !! 0%nat = Some (Release 1) → 1 = val (mem s)).
Proof.
  apply (returned_value_is_the_counter (Config ResourceAtomicFlag 2 5)).
  - reflexivity.
  - discriminate.
  - exists (execSync (Config ResourceAtomicFlag 2 5)), (replicate 5 (0%nat, false)).
    split; [apply initial_execSync|reflexivity].
Defined.

(** X11.  When [max(0, max_count - 1) + max_threads] is in the range
    of [int], in every state the compiled code reaches, in any of the
    three classes, a worker has returned only if the counter has
    reached [max_count]: while the counter is below [max_count] every
    worker is still in its loop. *)
Theorem no_worker_leaves_early (c : config) (s : state) (i : nat) :
  0 < max_threads c → in_range c → reachable_wrap c s →
  threads s !! i = Some Done → max_count c ≤ val (mem s).
Proof.
  intros Hn Hfit Hre%(reachable_wrap_reachable c Hn Hfit) Hi.
  destruct (turn_inv_reachable c Hn s Hre) as (_ & _ & Hloc).
  apply (Hloc _ _ Hi).
Qed.

Lemma no_worker_leaves_early_witness :
  max_count (Config ResourceMutex 2 3) ≤ val (mem (State (Shared 4 0) [Done; Done])).
Proof.
  apply (no_worker_leaves_early (Config ResourceMutex 2 3)
           (State (Shared 4 0) [Done; Done]) 0).
  - reflexivity.
  - discriminate.
  - exists (execSync (Config ResourceMutex 2 3)), (round_robin 2 4).
    split; [apply initial_execSync|vm_compute; reflexivity].
  - reflexivity.
Defined.
